(** * wallet-keeper, package [eth]: the Ethereum client and its balance watcher

    A shallow embedding of [keeper/eth/client.go].  The client keeps two Go
    maps (account -> address, account -> last balance seen), asks an Ethereum
    node for balances over JSON-RPC, and pushes balance-change events into the
    channel of the [notifier] package.  Go maps are [gmap]s, [float64] is the
    binary64 type of the kernel, a Go [(value, error)] result is a pair whose
    second component is an [option error], and everything a function mutates
    (the maps, the channel, the loggers) is threaded through the [Client]
    record. *)

From Stdlib Require Import ZArith NArith Floats Ascii String.
From stdpp Require Import gmap strings list relations.

Open Scope string_scope.
Open Scope list_scope.
Open Scope nat_scope.

(** ** Go values *)

(** [float64] with the comparison the Go operators [==] and [!=] perform:
    IEEE 754 equality, for which [NaN] differs from itself and the two
    zeros are equal. *)
Definition float64 : Type := float.

Definition float64_eq (x y : float64) : bool := PrimFloat.eqb x y.
Definition float64_ne (x y : float64) : bool := negb (float64_eq x y).

(** The [error] interface: the sentinel errors of this package and of
    package [keeper], and the errors of the collaborators (operating system,
    RPC client, keystore, JSON), which carry only their message. *)
Inductive error : Type :=
  | ErrNotValidAccountFile
  | ErrNotDirectory
  | ErrInvalidAddress
  | ErrAccountNotFound
  | ErrAccountExists
  | ErrNotSupport
  | ExternalError (msg : string).

(** A value stored in a [map[string]interface{}]; the watcher stores
    strings and float64s. *)
Inductive iface : Type :=
  | VString (s : string)
  | VFloat64 (f : float64).

(** ** Package [notifier] *)

Module notifier.

(** Modelled from the spec: package [notifier] is not part of the sources
    at hand.  A receiver is a subscription: endpoint, subscribed event
    types and retry budget, as [NewReceiver] is given them. *)
Record Receiver : Type := mkReceiver {
  Endpoint : string;
  EventTypes : list string;
  RetryCount : N
}.

Definition NewReceiver (endpoint : string) (eventTypes : list string)
    (retryCount : N) : Receiver :=
  mkReceiver endpoint eventTypes retryCount.

(** Modelled from the spec: the event type is the enumeration with the
    single member [BalanceChanged]; an event carries its type and its
    payload (the timestamp of the spec is left out, nothing here reads
    it). *)
Inductive EventType : Type := BalanceChanged.

Record Event : Type := mkEvent {
  Type_ : EventType;
  Payload : gmap string iface
}.

Definition NewEthBalanceChangeEvent (payload : gmap string iface) : Event :=
  mkEvent BalanceChanged payload.

(** Modelled from the spec: the notifier owns the receiver registry, a
    mapping from subscriber id to subscription, and the event channel.
    [eventChan] is the sequence of events sent on [EventChan()] so far,
    oldest first. *)
Record Notifier : Type := mkNotifier {
  receivers : gmap string Receiver;
  eventChan : list Event
}.

Definition New : Notifier := mkNotifier ∅ [].

Definition InstallReceiver (id : string) (r : Receiver) (n : Notifier)
    : Notifier :=
  mkNotifier (<[id := r]> (receivers n)) (eventChan n).

Definition UninstallReceiver (id : string) (n : Notifier) : Notifier :=
  mkNotifier (delete id (receivers n)) (eventChan n).

Definition ListReceivers (n : Notifier) : list (string * Receiver) :=
  map_to_list (receivers n).

(** [n.EventChan() <- event]: a plain channel send, which returns once the
    event is in the channel. *)
Definition send (event : Event) (n : Notifier) : Notifier :=
  mkNotifier (receivers n) (eventChan n ++ [event]).

End notifier.

(** ** Library functions the package calls *)

Module strings.

(** [strings.IndexByte]: position of the first [c] in [s]. *)
Fixpoint IndexByte (c : ascii) (s : string) : option nat :=
  match s with
  | EmptyString => None
  | String a s' =>
      if Ascii.eqb a c then Some 0 else S <$> IndexByte c s'
  end.

(** [strings.Count] for a separator of one byte. *)
Fixpoint Count (c : ascii) (s : string) : nat :=
  match s with
  | EmptyString => 0
  | String a s' => (if Ascii.eqb a c then 1 else 0) + Count c s'
  end.

(** The slices [s[:m]] and [s[m:]]. *)
Fixpoint slice_to (m : nat) (s : string) : string :=
  match m, s with
  | S m', String a s' => String a (slice_to m' s')
  | _, _ => EmptyString
  end.

Fixpoint slice_from (m : nat) (s : string) : string :=
  match m, s with
  | S m', String _ s' => slice_from m' s'
  | _, _ => s
  end.

(** The loop of [genSplit] with [sepSave = 0] and a separator of one
    byte: at most [n] cuts, each at the first separator of what is left;
    the rest is the last piece. *)
Fixpoint genSplit (sep : ascii) (n : nat) (s : string) : list string :=
  match n with
  | 0 => [s]
  | S n' =>
      match IndexByte sep s with
      | None => [s]
      | Some m => slice_to m s :: genSplit sep n' (slice_from (m + 1) s)
      end
  end.

(** [strings.SplitN(s, sep, n)] for a separator of one byte: no piece
    when [n = 0], every piece when [n < 0], at most [n] pieces
    otherwise. *)
Definition SplitN (s : string) (sep : ascii) (n : Z) : list string :=
  if (n =? 0)%Z then []
  else
    let n := if (n <? 0)%Z then Count sep s + 1 else Z.to_nat n in
    let n := (if String.length s + 1 <? n then String.length s + 1
              else n)%nat in
    genSplit sep (n - 1) s.

(** [strings.Join]. *)
Fixpoint Join (elems : list string) (sep : string) : string :=
  match elems with
  | [] => ""
  | [e] => e
  | e :: rest => e +:+ sep +:+ Join rest sep
  end.

End strings.

Module common.

(** go-ethereum's [common.Address], named by the text it was parsed
    from. *)
Inductive Address : Type := HexToAddress (s : string).

Definition has0xPrefix (str : string) : bool :=
  match str with
  | String a (String b _) =>
      Ascii.eqb a "0" && (Ascii.eqb b "x" || Ascii.eqb b "X")
  | _ => false
  end.

Definition isHexCharacter (c : ascii) : bool :=
  let n := nat_of_ascii c in
  ((48 <=? n) && (n <=? 57) || (97 <=? n) && (n <=? 102)
   || (65 <=? n) && (n <=? 70))%nat.

Fixpoint allHexCharacters (str : string) : bool :=
  match str with
  | EmptyString => true
  | String c str' => isHexCharacter c && allHexCharacters str'
  end.

Definition isHex (str : string) : bool :=
  if negb (String.length str mod 2 =? 0)%nat then false
  else allHexCharacters str.

Definition AddressLength : nat := 20.

Definition IsHexAddress (s : string) : bool :=
  let s := if has0xPrefix s then strings.slice_from 2 s else s in
  (String.length s =? 2 * AddressLength)%nat && isHex s.

End common.

(** ** The client *)

(** [ethRpcClient] answers [eth_getBalance(address, "latest")] with a number
    of wei or an error.  [l] collects what is written through the client's
    own logger, [log] what goes to the package-level logrus logger. *)
Record Client : Type := mkClient {
  ethRpcClient : string → Z + error;
  accountAddressMap : gmap string string;
  accountBalanceMap : gmap string float64;
  noti : notifier.Notifier;
  l : list error;
  log : list error
}.

Definition set_accountBalance (account : string) (balance : float64)
    (client : Client) : Client :=
  mkClient (ethRpcClient client) (accountAddressMap client)
    (<[account := balance]> (accountBalanceMap client))
    (noti client) (l client) (log client).

Definition set_noti (n : notifier.Notifier) (client : Client) : Client :=
  mkClient (ethRpcClient client) (accountAddressMap client)
    (accountBalanceMap client) n (l client) (log client).

(** [log.Println], [log.Debug] and [log.Error] of the package-level logger
    all add a line to [log]. *)
Definition log_Println (err : error) (client : Client) : Client :=
  mkClient (ethRpcClient client) (accountAddressMap client)
    (accountBalanceMap client) (noti client) (l client) (log client ++ [err]).

Definition log_Debug : error → Client → Client := log_Println.
Definition log_Error : error → Client → Client := log_Println.

Definition l_Errorf (err : error) (client : Client) : Client :=
  mkClient (ethRpcClient client) (accountAddressMap client)
    (accountBalanceMap client) (noti client) (l client ++ [err]) (log client).

(** The keys of a Go map, in the order of [map_to_list].  A [range] loop
    visits them in an order Go leaves unspecified; the loops below take the
    order as an argument. *)
Definition keys {V : Type} (m : gmap string V) : list string :=
  (map_to_list m).*1.

(** What [NewClient] sees of the operating system and of the libraries it
    calls: [os.Stat], [os.Open] (the content of the file), the JSON decoding
    of the account file, [rpc.Dial] (the connection, as the answers it will
    give), and the opening of [filepath.Join(logDir, "eth.log")]. *)
Record FileInfo : Type := mkFileInfo { IsRegular : bool; IsDir : bool }.

Record System : Type := mkSystem {
  os_Stat : string → FileInfo + error;
  os_Open : string → string + error;
  json_Decode : string → gmap string string + error;
  rpc_Dial : string → (string → Z + error) + error;
  filepath_Join : string → string → string;
  os_OpenFile : string → option error
}.

(** A transaction as [types.NewTransaction] builds it, and as the keystore
    signs it. *)
Record Transaction : Type := mkTransaction {
  tx_nonce : Z;
  tx_to : common.Address;
  tx_value : Z;
  tx_gasLimit : Z;
  tx_gasPrice : Z;
  tx_data : list Z
}.

Inductive SignedTransaction : Type :=
  | Signed (from : common.Address) (tx : Transaction) (chainID : Z).

(** The node and the keystore as [SendFrom] uses them. *)
Record Backend : Type := mkBackend {
  PendingNonceAt : common.Address → Z + error;
  SuggestGasPrice : Z + error;
  NetworkID : Z + error;
  store_SignTx : common.Address → Transaction → Z → option error;
  SendTransaction : SignedTransaction → option error
}.

Section Eth.

(** [weiToEther(wei).Float64()]: the conversion lives in another file of
    the package. *)
Variable weiToEther : Z → float64.

(** [etherToWei], from the same file. *)
Variable etherToWei : float64 → Z.

(** [getBalance]: value 0 together with the error when the call fails.
    The node is asked with the text of the address; the code parses it with
    [common.HexToAddress] on the way. *)
Definition getBalance (client : Client) (address : string)
    : float64 * option error :=
  match ethRpcClient client address with
  | inr err => (0%float, Some err)
  | inl balance => (weiToEther balance, None)
  end.

(** *** The balance watcher *)

(** The payload literal of [refreshFunc]. *)
Definition balanceChangePayload (account address : string)
    (newBalance balance : float64) : gmap string iface :=
  <["balance" := VFloat64 balance]>
    (<["newBalance" := VFloat64 newBalance]>
      (<["address" := VString address]>
        (<["account" := VString account]> ∅))).

(** Publish the event, then store the new balance. *)
Definition publishAndStore (account address : string)
    (newBalance balance : float64) (client : Client) : Client :=
  let event := notifier.NewEthBalanceChangeEvent
                 (balanceChangePayload account address newBalance balance) in
  let client := set_noti (notifier.send event (noti client)) client in
  set_accountBalance account newBalance client.

(** One iteration of the [range] loop of [refreshFunc], for the entry
    [account -> balance]. *)
Definition refreshAccount (account : string) (balance : float64)
    (client : Client) : Client :=
  match accountAddressMap client !! account with
  | Some address =>
      let '(newBalance, err) := getBalance client address in
      let client := match err with
                    | Some e => log_Println e client
                    | None => client
                    end in
      if float64_ne balance newBalance
      then publishAndStore account address newBalance balance client
      else client
  | None => client
  end.

(** The loop reads an entry when its turn comes. *)
Definition refreshEntry (account : string) (client : Client) : Client :=
  match accountBalanceMap client !! account with
  | Some balance => refreshAccount account balance client
  | None => client
  end.

(** [refreshFunc] visiting the accounts in the order [order]. *)
Definition refreshOver (order : list string) (client : Client) : Client :=
  foldl (λ client account, refreshEntry account client) client order.

Definition refreshFunc (client : Client) : Client :=
  refreshOver (keys (accountBalanceMap client)) client.

(** *** Construction *)

(** [loadAccountMap]: the map read from the account file. *)
Definition loadAccountMap (sys : System) (accountFilePath : string)
    : gmap string string + error :=
  match os_Open sys accountFilePath with
  | inr err => inr err
  | inl file => json_Decode sys file
  end.

(** One iteration of the seeding loop of [NewClient]. *)
Definition seedAccount (account address : string) (client : Client)
    : Client :=
  let '(balance, err) := getBalance client address in
  let client := match err with
                | Some e => log_Debug e client
                | None => client
                end in
  set_accountBalance account balance client.

Definition seedOver (order : list (string * string)) (client : Client)
    : Client :=
  foldl (λ client entry, seedAccount entry.1 entry.2 client) client order.

(** [NewClient], up to the two [go] statements that start the notifier and
    the watcher. *)
Definition NewClient (sys : System)
    (host walletDir accountFilePath logDir : string) : Client + error :=
  match os_Stat sys accountFilePath with
  | inr err => inr err
  | inl stat =>
    if negb (IsRegular stat) then inr ErrNotValidAccountFile
    else
      match loadAccountMap sys accountFilePath with
      | inr err => inr err
      | inl accounts =>
        match os_Stat sys walletDir with
        | inr _ => inr ErrNotDirectory
        | inl stat =>
          if negb (IsDir stat) then inr ErrNotDirectory
          else
            match rpc_Dial sys host with
            | inr err => inr err
            | inl conn =>
              match os_OpenFile sys (filepath_Join sys logDir "eth.log") with
              | Some err => inr err
              | None =>
                  let client :=
                    mkClient conn accounts ∅ notifier.New [] [] in
                  inl (seedOver (map_to_list (accountAddressMap client))
                         client)
              end
            end
        end
      end
  end.

(** *** Queries *)

Definition GetAddress (client : Client) (account : string)
    : string * option error :=
  match accountAddressMap client !! account with
  | None => ("", Some ErrAccountNotFound)
  | Some address => (address, None)
  end.

(** [GetAccountInfo]: account, balance and addresses, or the error. *)
Definition GetAccountInfo (client : Client) (account : string) (minConf : Z)
    : (string * float64 * list string) + error :=
  match accountAddressMap client !! account with
  | None => inr ErrAccountNotFound
  | Some address =>
      match getBalance client address with
      | (_, Some err) => inr err
      | (balance, None) => inl (account, balance, [address])
      end
  end.

(** One iteration of the loop of [ListAccountsMinConf]. *)
Definition listAccount (name address : string)
    (st : Client * gmap string float64) : Client * gmap string float64 :=
  let '(client, accounts) := st in
  match getBalance client address with
  | (_, Some err) => (l_Errorf err client, <[name := 0%float]> accounts)
  | (balance, None) => (client, <[name := balance]> accounts)
  end.

Definition listOver (order : list (string * string))
    (st : Client * gmap string float64) : Client * gmap string float64 :=
  foldl (λ st entry, listAccount entry.1 entry.2 st) st order.

Definition ListAccountsMinConf (client : Client) (conf : Z)
    : Client * (gmap string float64 * option error) :=
  let '(client, accounts) :=
    listOver (map_to_list (accountAddressMap client)) (client, ∅) in
  (client, (accounts, None)).

(** *** Sending *)

(** [SendFrom]: the client (for its log), the transactions handed to the
    node, and the error returned.  The [hexFromAddress] declared inside
    the first [if] is a new variable, which the code discards; the checks
    after it read the outer one, which is [account]. *)
Definition SendFrom (backend : Backend) (client : Client)
    (account hexToAddress : string) (amount : float64)
    : Client * list SignedTransaction * option error :=
  let hexFromAddress := account in
  let notFound :=
    if negb (common.IsHexAddress account)
    then match accountAddressMap client !! account with
         | Some _hexFromAddress => false
         | None => true
         end
    else false in
  if notFound then (client, [], Some ErrInvalidAddress)
  else if negb (common.IsHexAddress hexFromAddress)
  then (client, [], Some ErrInvalidAddress)
  else if negb (common.IsHexAddress hexToAddress)
  then (client, [], Some ErrInvalidAddress)
  else
    let fromAddress := common.HexToAddress hexFromAddress in
    let toAddress := common.HexToAddress hexToAddress in
    match PendingNonceAt backend fromAddress with
    | inr err => (log_Error err client, [], Some err)
    | inl nonce =>
      let value := etherToWei amount in
      let gasLimit := 21000%Z in
      match SuggestGasPrice backend with
      | inr err => (log_Error err client, [], Some err)
      | inl gasPrice =>
        match NetworkID backend with
        | inr err => (log_Error err client, [], Some err)
        | inl chainID =>
          let tx :=
            mkTransaction nonce toAddress value gasLimit gasPrice [] in
          match store_SignTx backend fromAddress tx chainID with
          | Some err => (log_Error err client, [], Some err)
          | None =>
            let signedTx := Signed fromAddress tx chainID in
            match SendTransaction backend signedTx with
            | Some err => (log_Error err client, [signedTx], Some err)
            | None => (client, [signedTx], None)
            end
          end
        end
      end
    end.

Definition Move (backend : Backend) (client : Client)
    (from to : string) (amount : float64)
    : Client * list SignedTransaction * (bool * option error) :=
  match SendFrom backend client from to amount with
  | (client, sent, Some err) => (client, sent, (false, Some err))
  | (client, sent, None) => (client, sent, (true, None))
  end.

End Eth.

(** *** The routes of [AddRoutes] *)

Module gin.

(** The body a handler writes: the only one here is the receiver list. *)
Record Response : Type := mkResponse {
  status : nat;
  body : list (string * notifier.Receiver)
}.

(** A request context for a handler that binds a [P]: what [ShouldBind]
    gives (the bound parameters or the binding error) and what has been
    written to the response so far. *)
Record Context (P : Type) : Type := mkContext {
  ShouldBind : P + error;
  written : list Response
}.
Arguments mkContext {P}.
Arguments ShouldBind {P}.
Arguments written {P}.

Definition JSON {P : Type} (code : nat)
    (obj : list (string * notifier.Receiver)) (c : Context P) : Context P :=
  mkContext (ShouldBind c) (written c ++ [mkResponse code obj]).

End gin.

Definition StatusOK : nat := 200.

Record installParams : Type := mkInstallParams {
  RetryCount : N;
  Endpoint : string;
  EventTypes : string
}.

Record uninstallParams : Type := mkUninstallParams { Name : string }.

(** GET /notifiers/list *)
Definition listHandler (c : gin.Context unit) (client : Client)
    : Client * gin.Context unit :=
  (client, gin.JSON StatusOK (notifier.ListReceivers (noti client)) c).

(** POST /notifiers/install; [uuidIns] is the text of the identifier that
    [uuid.NewUUID] returned. *)
Definition installHandler (uuidIns : string) (c : gin.Context installParams)
    (client : Client) : Client * gin.Context installParams :=
  match gin.ShouldBind c with
  | inl params =>
      let receiver :=
        notifier.NewReceiver (Endpoint params)
          (strings.SplitN (EventTypes params) "," (-1))
          (RetryCount params) in
      (set_noti (notifier.InstallReceiver uuidIns receiver (noti client))
         client, c)
  | inr _ => (client, c)
  end.

(** POST /notifiers/uninstall *)
Definition uninstallHandler (c : gin.Context uninstallParams)
    (client : Client) : Client * gin.Context uninstallParams :=
  match gin.ShouldBind c with
  | inl params =>
      (set_noti (notifier.UninstallReceiver (Name params) (noti client))
         client, c)
  | inr _ => (client, c)
  end.

(** ** What a sweep does for one account *)

(** The events of a channel trace that are about [account]. *)
Definition forAccount (account : string) (event : notifier.Event) : bool :=
  match notifier.Payload event !! "account" with
  | Some (VString a) => String.eqb a account
  | _ => false
  end.

Definition eventsFor (account : string) (events : list notifier.Event)
    : list notifier.Event :=
  List.filter (forAccount account) events.

(** What the sweep has sent: the channel trace after it, without the
    events that were there before. *)
Definition published (before after : Client) : list notifier.Event :=
  drop (length (notifier.eventChan (noti before)))
       (notifier.eventChan (noti after)).

(** The balance stored and the events sent by one visit of the entry
    [account -> balance], read off the client's address map and node. *)
Definition outcome (weiToEther : Z → float64) (client : Client)
    (account : string) (balance : float64)
    : float64 * list notifier.Event :=
  match accountAddressMap client !! account with
  | Some address =>
      let newBalance := (getBalance weiToEther client address).1 in
      if float64_ne balance newBalance
      then (newBalance,
            [notifier.NewEthBalanceChangeEvent
               (balanceChangePayload account address newBalance balance)])
      else (balance, [])
  | None => (balance, [])
  end.

(** ** Account creation and the remaining queries *)

Module keeper.

(** [keeper.Account], with the fields this package fills; [zero] is the
    value of [keeper.Account{}]. *)
Record Account : Type := mkAccount {
  Account_ : string;
  Balance : float64;
  Addresses : list string
}.

Definition zero : Account := mkAccount "" 0%float [].

End keeper.

Definition PASSWORD : string := "password".

(** How a call ends: it returns, or the goroutine panics. *)
Inductive outcome_of (A : Type) : Type :=
  | Returns (a : A)
  | Panics.
Arguments Returns {A}.
Arguments Panics {A}.

(** What [persistAccountMap] sees of the operating system: [os.Stat],
    [os.IsNotExist], [os.OpenFile(path, O_WRONLY, 0755)], and the encoder
    writing the map to the opened file. *)
Record Storage : Type := mkStorage {
  st_Stat : string → FileInfo + error;
  os_IsNotExist : error → bool;
  st_OpenFile : string → option error;
  json_Encode : gmap string string → option error
}.

Definition set_accountAddress (account address : string) (client : Client)
    : Client :=
  mkClient (ethRpcClient client)
    (<[account := address]> (accountAddressMap client))
    (accountBalanceMap client) (noti client) (l client) (log client).

(** [persistAccountMap]: the maps handed to the encoder, and how the call
    ends.  When [os.Stat] fails with an error that is not a not-exist error
    the code goes on to [stat.Mode()] with a nil [stat], which panics. *)
Definition persistAccountMap (disk : Storage) (accountFilePath : string)
    (client : Client) : list (gmap string string) * outcome_of (option error) :=
  match st_Stat disk accountFilePath with
  | inr err =>
      if os_IsNotExist disk err then ([], Returns (Some err))
      else ([], Panics)
  | inl stat =>
      if negb (IsRegular stat)
      then ([], Returns (Some ErrNotValidAccountFile))
      else
        match st_OpenFile disk accountFilePath with
        | Some err => ([], Returns (Some err))
        | None =>
            ([accountAddressMap client],
             Returns (json_Encode disk (accountAddressMap client)))
        end
  end.

(** The effects and the end of [CreateAccount]: the client, the addresses
    of the keys the keystore created, and the maps handed to the encoder.
    [store_NewAccount] is the keystore asked for a new key under a
    passphrase, giving the hex text of its address. *)
Record Created : Type := mkCreated {
  cr_client : Client;
  cr_keys : list string;
  cr_encoded : list (gmap string string);
  cr_result : outcome_of (keeper.Account * option error)
}.

Definition CreateAccount (store_NewAccount : string → string + error)
    (disk : Storage) (accountFilePath : string) (client : Client)
    (account : string) : Created :=
  let '(address, _) := GetAddress client account in
  if 0 <? String.length address
  then mkCreated client [] [] (Returns (keeper.zero, Some ErrAccountExists))
  else
    match store_NewAccount PASSWORD with
    | inr err => mkCreated client [] [] (Returns (keeper.zero, Some err))
    | inl hex =>
        let client := set_accountAddress account hex client in
        let client := set_accountBalance account 0%float client in
        match persistAccountMap disk accountFilePath client with
        | (encoded, Panics) => mkCreated client [hex] encoded Panics
        | (encoded, Returns (Some err)) =>
            mkCreated client [hex] encoded (Returns (keeper.zero, Some err))
        | (encoded, Returns None) =>
            mkCreated client [hex] encoded
              (Returns (keeper.mkAccount account 0%float [hex], None))
        end
    end.

Definition GetAddressesByAccount (client : Client) (account : string)
    : list string * option error :=
  match accountAddressMap client !! account with
  | None => ([], Some ErrAccountNotFound)
  | Some address => ([address], None)
  end.

(** ** The event bus *)

Module bus.
Import notifier.

(** Modelled from the spec: the channel behind [EventChan()] and the
    dispatcher that reads it are in package [notifier], which is not part
    of the sources at hand.  The bus is a bounded first-in first-out
    buffer between one producer and one consumer.  [pending] holds the
    events the producer has still to publish, the first being the one its
    current send is about; [buffer] is the content of the channel;
    [dispatched] is what the consumer has taken out, oldest first. *)
Record State : Type := mkState {
  pending : list Event;
  buffer : list Event;
  dispatched : list Event
}.

Definition init (events : list Event) : State := mkState events [] [].

(** A send completes only while the buffer has room; with a full buffer
    the producer has no step and waits.  The consumer takes the oldest
    event of the buffer. *)
Inductive step (capacity : nat) : State → State → Prop :=
  | step_send e p b d :
      length b < capacity →
      step capacity (mkState (e :: p) b d) (mkState p (b ++ [e]) d)
  | step_receive e p b d :
      step capacity (mkState p (e :: b) d) (mkState p b (d ++ [e])).

(** Every event the producer was given, in publication order. *)
Definition all (s : State) : list Event :=
  dispatched s ++ buffer s ++ pending s.

(** Steps left at most: two per pending event, one per buffered one. *)
Definition work (s : State) : nat :=
  2 * length (pending s) + length (buffer s).

End bus.

(** ** Data for the examples *)

(** A conversion for the examples: the nearest float64 to the number of
    wei, divided by 10^18. *)
Definition weiToEther_example (wei : Z) : float64 :=
  (SF2Prim (SpecFloat.binary_normalize 53 1024 wei 0 false) / 1e18)%float.

Definition etherToWei_example (amount : float64) : Z := 0%Z.

Definition addr_alice : string := "0xAAaAAAAaaAAAAaAAAAaAAaAaaAAAaAaaaAAaAaaA".
Definition addr_bob : string := "0xbBbBBBBbbBBBbbbBbbBbbbbBBbBbbbbBbBbbBBbB".

(** A node that knows alice (12.5 ether) and fails for every other
    address. *)
Definition node_example (address : string) : Z + error :=
  if String.eqb address addr_alice then inl 12500000000000000000%Z
  else inr (ExternalError "connection refused").

(** alice and bob are tracked; the snapshot holds 10 for both. *)
Definition client_example : Client :=
  mkClient node_example
    (<["alice" := addr_alice]> (<["bob" := addr_bob]> ∅))
    (<["alice" := 10%float]> (<["bob" := 10%float]> ∅))
    notifier.New [] [].

Definition system_example : System :=
  mkSystem
    (λ path,
       if String.eqb path "accounts.json" then inl (mkFileInfo true false)
       else if String.eqb path "wallets" then inl (mkFileInfo false true)
       else inr (ExternalError "no such file or directory"))
    (λ path, inl "{}")
    (λ _, inl (<["alice" := addr_alice]> (<["bob" := addr_bob]> ∅)))
    (λ host, inl node_example)
    (λ dir name, dir +:+ "/" +:+ name)
    (λ path, None).

Definition backend_example : Backend :=
  mkBackend (λ _, inl 0%Z) (inl 1%Z) (inl 1%Z) (λ _ _ _, None) (λ _, None).

(** The client that [NewClient] builds on [system_example]: bob's lookup
    failed, so his entry is 0 and the error is in the log. *)
Definition client_seeded : Client :=
  mkClient node_example
    (<["alice" := addr_alice]> (<["bob" := addr_bob]> ∅))
    (<["alice" := 12.5%float]> (<["bob" := 0%float]> ∅))
    notifier.New [] [ExternalError "connection refused"].

(** An install request with an empty endpoint, and a usual one. *)
Definition request_empty_endpoint : gin.Context installParams :=
  gin.mkContext (inl (mkInstallParams 1 "" "eth_balance_change_event")) [].

Definition request_example : gin.Context installParams :=
  gin.mkContext
    (inl (mkInstallParams 2 "http://callbackdomain.com/foo/bar"
            "eth_balance_change_event,eth_new_block_event")) [].

Definition uuid_example : string := "6ba7b810-9dad-11d1-80b4-00c04fd430c8".

(** What the spec asks of the install route for a malformed request: an
    error response reaches the client, and the registry is as before. *)
Definition install_rejected (uuidIns : string)
    (c : gin.Context installParams) (client : Client) : Prop :=
  let result := installHandler uuidIns c client in
  (∃ response,
     response ∈ gin.written result.2 ∧ 400 ≤ gin.status response)
  ∧ notifier.receivers (noti result.1) = notifier.receivers (noti client).

Definition event_alice : notifier.Event :=
  notifier.NewEthBalanceChangeEvent
    (balanceChangePayload "alice" addr_alice 12.5%float 10%float).

Definition event_bob : notifier.Event :=
  notifier.NewEthBalanceChangeEvent
    (balanceChangePayload "bob" addr_bob 0%float 10%float).

(** A keystore that creates the key of carol, and a disk on which the
    account file can be written. *)
Definition addr_carol : string := "0xCcCCccccCCCCcCCCCCCcCcCccCcCCCcCcccccccC".

Definition keystore_example (passphrase : string) : string + error :=
  inl addr_carol.

Definition disk_example : Storage :=
  mkStorage (λ path, inl (mkFileInfo true false)) (λ err, false)
    (λ path, None) (λ accounts, None).



(** A snapshot entry without an address: dave is in the balance map only. *)
Definition client_orphan : Client :=
  mkClient node_example
    (<["alice" := addr_alice]> ∅)
    (<["alice" := 10%float]> (<["dave" := 3%float]> ∅))
    notifier.New [] [].

(** * Properties *)

(** ** Comparing balances *)

(** Go's [!=] on float64 tells a value from itself only when it is NaN. *)
Lemma float64_ne_same (x : float64) : float64_ne x x = PrimFloat.is_nan x.
Proof. reflexivity. Qed.

(** ** The balance watcher *)

Section Watcher.

Variable weiToEther : Z → float64.

Lemma getBalance_node (c c' : Client) (address : string) :
  ethRpcClient c = ethRpcClient c' →
  getBalance weiToEther c address = getBalance weiToEther c' address.
Proof. unfold getBalance. by intros ->. Qed.

(** A visit leaves the node and the address map alone. *)
Lemma refreshAccount_fixed (a : string) (b : float64) (c : Client) :
  ethRpcClient (refreshAccount weiToEther a b c) = ethRpcClient c
  ∧ accountAddressMap (refreshAccount weiToEther a b c) = accountAddressMap c.
Proof.
  unfold refreshAccount.
  destruct (accountAddressMap c !! a) as [address|]; [|done].
  destruct (getBalance weiToEther c address) as [nb [e|]];
    destruct (float64_ne b nb); done.
Qed.

Lemma refreshOver_cons (a : string) (order : list string) (c : Client) :
  refreshOver weiToEther (a :: order) c
  = refreshOver weiToEther order (refreshEntry weiToEther a c).
Proof. reflexivity. Qed.

Lemma refreshEntry_fixed (a : string) (c : Client) :
  ethRpcClient (refreshEntry weiToEther a c) = ethRpcClient c
  ∧ accountAddressMap (refreshEntry weiToEther a c) = accountAddressMap c.
Proof.
  unfold refreshEntry.
  destruct (accountBalanceMap c !! a) as [b|]; [|done].
  apply refreshAccount_fixed.
Qed.

Lemma refreshOver_fixed (order : list string) (c : Client) :
  ethRpcClient (refreshOver weiToEther order c) = ethRpcClient c
  ∧ accountAddressMap (refreshOver weiToEther order c) = accountAddressMap c.
Proof.
  revert c. induction order as [|a order IH]; intros c; [done|].
  rewrite refreshOver_cons.
  destruct (IH (refreshEntry weiToEther a c)) as [-> ->].
  apply refreshEntry_fixed.
Qed.

Lemma outcome_fixed (c c' : Client) (a : string) (b : float64) :
  ethRpcClient c = ethRpcClient c' →
  accountAddressMap c = accountAddressMap c' →
  outcome weiToEther c a b = outcome weiToEther c' a b.
Proof.
  intros Hn Hm. unfold outcome. rewrite Hm.
  destruct (accountAddressMap c' !! a) as [address|]; [|done].
  by rewrite (getBalance_node c c' address Hn).
Qed.

Lemma forAccount_payload (a a' address : string) (nb b : float64) :
  forAccount a (notifier.NewEthBalanceChangeEvent
                  (balanceChangePayload a' address nb b))
  = String.eqb a' a.
Proof. reflexivity. Qed.

(** The events of a visit of [a] are about [a] and about nobody else. *)
Lemma outcome_eventsFor (c : Client) (a a' : string) (b : float64) :
  eventsFor a' (outcome weiToEther c a b).2
  = if String.eqb a a' then (outcome weiToEther c a b).2 else [].
Proof.
  unfold outcome.
  destruct (accountAddressMap c !! a) as [address|];
    [|by destruct (String.eqb a a')].
  destruct (float64_ne b (getBalance weiToEther c address).1); cbn;
    [|by destruct (String.eqb a a')].
  rewrite forAccount_payload. by destruct (String.eqb a a').
Qed.

(** A visit in terms of [outcome]. *)
Lemma refreshAccount_outcome (a : string) (b : float64) (c : Client) :
  accountBalanceMap c !! a = Some b →
  accountBalanceMap (refreshAccount weiToEther a b c) !! a
    = Some (outcome weiToEther c a b).1
  ∧ (∀ k, k ≠ a →
       accountBalanceMap (refreshAccount weiToEther a b c) !! k
       = accountBalanceMap c !! k)
  ∧ notifier.eventChan (noti (refreshAccount weiToEther a b c))
    = notifier.eventChan (noti c) ++ (outcome weiToEther c a b).2.
Proof.
  intros Hb. unfold refreshAccount, outcome.
  destruct (accountAddressMap c !! a) as [address|]; cbn;
    [|by rewrite app_nil_r].
  destruct (getBalance weiToEther c address) as [nb [e|]]; cbn;
    destruct (float64_ne b nb); cbn; rewrite ?app_nil_r;
    repeat split; try done;
    try (by rewrite lookup_insert_eq);
    by intros k Hk; rewrite lookup_insert_ne.
Qed.

Lemma refreshEntry_outcome (a : string) (b : float64) (c : Client) :
  accountBalanceMap c !! a = Some b →
  accountBalanceMap (refreshEntry weiToEther a c) !! a
    = Some (outcome weiToEther c a b).1
  ∧ notifier.eventChan (noti (refreshEntry weiToEther a c))
    = notifier.eventChan (noti c) ++ (outcome weiToEther c a b).2.
Proof.
  intros Hb. unfold refreshEntry. rewrite Hb.
  destruct (refreshAccount_outcome a b c Hb) as (? & _ & ?). done.
Qed.

(** Visiting [a] changes nothing for another account [k]: neither its
    entry nor the events about it. *)
Lemma refreshEntry_other (a k : string) (c : Client) :
  k ≠ a →
  accountBalanceMap (refreshEntry weiToEther a c) !! k
    = accountBalanceMap c !! k
  ∧ eventsFor k (notifier.eventChan (noti (refreshEntry weiToEther a c)))
    = eventsFor k (notifier.eventChan (noti c)).
Proof.
  intros Hk. unfold refreshEntry.
  destruct (accountBalanceMap c !! a) as [b|] eqn:Hb; [|done].
  destruct (refreshAccount_outcome a b c Hb) as (_ & Hother & ->).
  split; [by apply Hother|].
  unfold eventsFor. rewrite List.filter_app.
  fold (eventsFor k (outcome weiToEther c a b).2).
  rewrite outcome_eventsFor.
  destruct (String.eqb_spec a k) as [->|_]; [done|]. by rewrite app_nil_r.
Qed.

Lemma refreshOver_other (order : list string) (k : string) (c : Client) :
  k ∉ order →
  accountBalanceMap (refreshOver weiToEther order c) !! k
    = accountBalanceMap c !! k
  ∧ eventsFor k (notifier.eventChan (noti (refreshOver weiToEther order c)))
    = eventsFor k (notifier.eventChan (noti c)).
Proof.
  revert c. induction order as [|a order IH]; intros c Hk; [done|].
  apply not_elem_of_cons in Hk as [Hka Hk].
  rewrite refreshOver_cons.
  destruct (IH (refreshEntry weiToEther a c) Hk) as [-> ->].
  by apply refreshEntry_other.
Qed.

(** The channel only grows during a sweep. *)
Lemma refreshOver_published (order : list string) (c : Client) :
  notifier.eventChan (noti (refreshOver weiToEther order c))
  = notifier.eventChan (noti c)
    ++ published c (refreshOver weiToEther order c).
Proof.
  unfold published.
  enough (∃ new, notifier.eventChan (noti (refreshOver weiToEther order c))
                 = notifier.eventChan (noti c) ++ new) as [new ->].
  { by rewrite drop_app_length. }
  revert c. induction order as [|a order IH]; intros c.
  - exists []. by rewrite app_nil_r.
  - rewrite refreshOver_cons.
    destruct (IH (refreshEntry weiToEther a c)) as [new ->].
    unfold refreshEntry.
    destruct (accountBalanceMap c !! a) as [b|] eqn:Hb; [|by exists new].
    destruct (refreshAccount_outcome a b c Hb) as (_ & _ & ->).
    eexists. by rewrite <- app_assoc.
Qed.

(** The sweep, for an account it visits once. *)
Lemma refreshOver_outcome (order : list string) (a : string) (b : float64)
    (c : Client) :
  NoDup order → a ∈ order →
  accountBalanceMap c !! a = Some b →
  accountBalanceMap (refreshOver weiToEther order c) !! a
    = Some (outcome weiToEther c a b).1
  ∧ eventsFor a (published c (refreshOver weiToEther order c))
    = (outcome weiToEther c a b).2.
Proof.
  intros Hnd Ha Hb.
  enough (accountBalanceMap (refreshOver weiToEther order c) !! a
            = Some (outcome weiToEther c a b).1
          ∧ eventsFor a
              (notifier.eventChan (noti (refreshOver weiToEther order c)))
            = eventsFor a (notifier.eventChan (noti c))
              ++ (outcome weiToEther c a b).2) as [H1 H2].
  { split; [done|]. rewrite refreshOver_published in H2.
    unfold eventsFor in *. rewrite List.filter_app in H2.
    by apply app_inv_head in H2. }
  revert c Hb. induction Hnd as [|x order Hx Hnd IH]; intros c Hb.
  { by apply elem_of_nil in Ha. }
  rewrite refreshOver_cons.
  destruct (decide (a = x)) as [->|Hax].
  - destruct (refreshOver_other order x (refreshEntry weiToEther x c) Hx)
      as [-> ->].
    destruct (refreshEntry_outcome x b c Hb) as [-> ->].
    split; [done|]. unfold eventsFor. rewrite List.filter_app.
    fold (eventsFor x (outcome weiToEther c x b).2).
    rewrite outcome_eventsFor. by rewrite String.eqb_refl.
  - apply elem_of_cons in Ha as [?|Ha]; [done|].
    destruct (refreshEntry_other x a c Hax) as [Hb' Hev].
    destruct (refreshEntry_fixed x c) as [Hn Hm].
    rewrite <- Hev, <- (outcome_fixed _ _ a b Hn Hm).
    apply (IH Ha). by rewrite Hb'.
Qed.

(** An order that enumerates the snapshot visits every account once. *)
Lemma order_keys {V : Type} (order : list string) (m : gmap string V) :
  order ≡ₚ keys m →
  NoDup order ∧ ∀ a, a ∈ order ↔ is_Some (m !! a).
Proof.
  intros Hp. split.
  - rewrite Hp. apply NoDup_fst_map_to_list.
  - intros a. rewrite Hp. unfold keys. rewrite list_elem_of_fmap. split.
    + intros ([k v] & -> & Hin). apply elem_of_map_to_list in Hin. by exists v.
    + intros [v Hv]. exists (a, v). split; [done|].
      by apply elem_of_map_to_list.
Qed.

(** Everything a sweep sends, account by account in visiting order. *)
Lemma refreshOver_events (order : list string) (c : Client) :
  NoDup order →
  notifier.eventChan (noti (refreshOver weiToEther order c))
  = notifier.eventChan (noti c)
    ++ concat (List.map
                 (λ a, match accountBalanceMap c !! a with
                       | Some b => (outcome weiToEther c a b).2
                       | None => []
                       end) order).
Proof.
  intros Hnd. revert c. induction Hnd as [|x order Hx Hnd IH]; intros c.
  { cbn. by rewrite app_nil_r. }
  rewrite refreshOver_cons, IH. cbn [List.map concat].
  rewrite app_assoc. f_equal.
  - unfold refreshEntry.
    destruct (accountBalanceMap c !! x) as [b|] eqn:Hb;
      [|by rewrite app_nil_r].
    by destruct (refreshAccount_outcome x b c Hb) as (_ & _ & ->).
  - f_equal. apply List.map_ext_in. intros a Ha%list_elem_of_In.
    assert (a ≠ x) as Hax by (by intros ->).
    destruct (refreshEntry_other x a c Hax) as [-> _].
    destruct (accountBalanceMap c !! a) as [b|]; [|done].
    destruct (refreshEntry_fixed x c) as [Hn Hm].
    by rewrite (outcome_fixed _ _ a b Hn Hm).
Qed.

Lemma published_origin (order : list string) (c : Client)
    (event : notifier.Event) :
  NoDup order →
  event ∈ published c (refreshOver weiToEther order c) →
  ∃ a b, a ∈ order ∧ accountBalanceMap c !! a = Some b
         ∧ event ∈ (outcome weiToEther c a b).2.
Proof.
  intros Hnd. unfold published.
  rewrite (refreshOver_events order c Hnd), drop_app_length.
  intros (evs & Hevs & Hin)%list_elem_of_In%List.in_concat.
  apply List.in_map_iff in Hevs as (a & <- & Ha).
  apply list_elem_of_In in Hin.
  destruct (accountBalanceMap c !! a) as [b|] eqn:Hb.
  - exists a, b. by rewrite list_elem_of_In.
  - by apply elem_of_nil in Hin.
Qed.

(** What the visit of an account does when its lookup fails: the value 0
    that [getBalance] returns with the error is compared and stored like a
    balance. *)
Lemma outcome_lookup_failed (c : Client) (a address : string) (b : float64)
    (err : error) :
  accountAddressMap c !! a = Some address →
  ethRpcClient c address = inr err →
  outcome weiToEther c a b
  = if float64_ne b 0%float
    then (0%float,
          [notifier.NewEthBalanceChangeEvent
             (balanceChangePayload a address 0%float b)])
    else (b, []).
Proof. intros Ha Herr. unfold outcome, getBalance. by rewrite Ha, Herr. Qed.

Lemma outcome_lookup_succeeded (c : Client) (a address : string)
    (b : float64) (wei : Z) :
  accountAddressMap c !! a = Some address →
  ethRpcClient c address = inl wei →
  outcome weiToEther c a b
  = if float64_ne b (weiToEther wei)
    then (weiToEther wei,
          [notifier.NewEthBalanceChangeEvent
             (balanceChangePayload a address (weiToEther wei) b)])
    else (b, []).
Proof. intros Ha Hwei. unfold outcome, getBalance. by rewrite Ha, Hwei. Qed.

(** The package log only grows during a sweep. *)
Lemma refreshEntry_log (a : string) (c : Client) :
  ∃ more, log (refreshEntry weiToEther a c) = log c ++ more.
Proof.
  unfold refreshEntry, refreshAccount.
  destruct (accountBalanceMap c !! a) as [b|];
    [|by exists []; rewrite app_nil_r].
  destruct (accountAddressMap c !! a) as [address|];
    [|by exists []; rewrite app_nil_r].
  destruct (getBalance weiToEther c address) as [nb [e|]];
    destruct (float64_ne b nb); cbn;
    first [by exists [e] | by exists []; rewrite app_nil_r].
Qed.

Lemma refreshOver_log (order : list string) (c : Client) :
  ∃ more, log (refreshOver weiToEther order c) = log c ++ more.
Proof.
  revert c. induction order as [|a order IH]; intros c.
  - exists []. by rewrite app_nil_r.
  - rewrite refreshOver_cons.
    destruct (IH (refreshEntry weiToEther a c)) as [more2 ->].
    destruct (refreshEntry_log a c) as [more1 ->].
    exists (more1 ++ more2). by rewrite app_assoc.
Qed.

Lemma refreshEntry_logs_failure (a address : string) (b : float64)
    (err : error) (c : Client) :
  accountBalanceMap c !! a = Some b →
  accountAddressMap c !! a = Some address →
  ethRpcClient c address = inr err →
  err ∈ log (refreshEntry weiToEther a c).
Proof.
  intros Hb Ha Herr. unfold refreshEntry, refreshAccount, getBalance.
  rewrite Hb, Ha, Herr.
  destruct (float64_ne b 0%float); cbn; apply elem_of_app; right;
    apply list_elem_of_here.
Qed.

Lemma refreshOver_app (order1 order2 : list string) (c : Client) :
  refreshOver weiToEther (order1 ++ order2) c
  = refreshOver weiToEther order2 (refreshOver weiToEther order1 c).
Proof. unfold refreshOver. apply foldl_app. Qed.

(** What a sweep does for an account whose lookup fails: the error is
    logged, and the 0 that came with it is treated as the balance looked
    up.  Unless the snapshot already held 0, an event with new balance 0 is
    published and 0 is stored. *)
Lemma refresh_lookup_failed (client : Client) (order : list string)
    (account address : string) (balance : float64) (err : error) :
  order ≡ₚ keys (accountBalanceMap client) →
  accountBalanceMap client !! account = Some balance →
  accountAddressMap client !! account = Some address →
  ethRpcClient client address = inr err →
  let client' := refreshOver weiToEther order client in
  err ∈ log client'
  ∧ if float64_ne balance 0%float
    then eventsFor account (published client client')
         = [notifier.NewEthBalanceChangeEvent
              (balanceChangePayload account address 0%float balance)]
         ∧ accountBalanceMap client' !! account = Some 0%float
    else eventsFor account (published client client') = []
         ∧ accountBalanceMap client' !! account = Some balance.
Proof.
  intros Hord Hb Ha Herr client'.
  destruct (order_keys order _ Hord) as [Hnd Hin].
  assert (account ∈ order) as Hacc by (apply Hin; eauto).
  split.
  - apply list_elem_of_split in Hacc as (pre & post & ->).
    unfold client'. rewrite refreshOver_app, refreshOver_cons.
    apply NoDup_app in Hnd as (_ & Hpre & _).
    assert (account ∉ pre) as Hnot
      by (intros ?; eapply Hpre; [done|apply list_elem_of_here]).
    destruct (refreshOver_other pre account client Hnot) as [Hb' _].
    destruct (refreshOver_fixed pre client) as [Hn Hm].
    set (c1 := refreshOver weiToEther pre client) in *.
    destruct (refreshOver_log post (refreshEntry weiToEther account c1))
      as [more ->].
    apply elem_of_app. left.
    apply (refreshEntry_logs_failure account address balance);
      by rewrite ?Hb', ?Hm, ?Hn.
  - destruct (refreshOver_outcome order account balance client Hnd Hacc Hb)
      as [Hbal Hev].
    rewrite (outcome_lookup_failed _ _ _ _ _ Ha Herr) in Hbal, Hev.
    fold client' in Hbal, Hev. by destruct (float64_ne balance 0%float).
Qed.

(** C2: for an account of the snapshot whose lookup succeeds, the watcher
    compares the balance returned with the one stored, by the comparison of
    Go's [!=].  When they differ, the visit is the publication of one event
    that carries both values followed by the update of the entry, the sweep
    publishes exactly that event for the account and leaves the new balance
    in the snapshot.  When they are equal, the visit changes nothing, the
    sweep publishes no event for the account and the entry keeps its
    value. *)
Theorem refresh_lookup_succeeded (client : Client) (order : list string)
    (account address : string) (balance : float64) (wei : Z) :
  order ≡ₚ keys (accountBalanceMap client) →
  accountBalanceMap client !! account = Some balance →
  accountAddressMap client !! account = Some address →
  ethRpcClient client address = inl wei →
  let newBalance := weiToEther wei in
  let client' := refreshOver weiToEther order client in
  let event := notifier.NewEthBalanceChangeEvent
                 (balanceChangePayload account address newBalance balance) in
  if float64_ne balance newBalance
  then refreshAccount weiToEther account balance client
       = set_accountBalance account newBalance
           (set_noti (notifier.send event (noti client)) client)
       ∧ notifier.Payload event !! "balance" = Some (VFloat64 balance)
       ∧ notifier.Payload event !! "newBalance" = Some (VFloat64 newBalance)
       ∧ eventsFor account (published client client') = [event]
       ∧ accountBalanceMap client' !! account = Some newBalance
  else refreshAccount weiToEther account balance client = client
       ∧ eventsFor account (published client client') = []
       ∧ accountBalanceMap client' !! account = Some balance.
Proof.
  intros Hord Hb Ha Hwei newBalance client' event.
  destruct (order_keys order _ Hord) as [Hnd Hin].
  assert (account ∈ order) as Hacc by (apply Hin; eauto).
  destruct (refreshOver_outcome order account balance client Hnd Hacc Hb)
    as [Hbal Hev].
  rewrite (outcome_lookup_succeeded _ _ _ _ _ Ha Hwei) in Hbal, Hev.
  fold newBalance in Hbal, Hev.
  assert (refreshAccount weiToEther account balance client
          = if float64_ne balance newBalance
            then publishAndStore account address newBalance balance client
            else client) as Hstep.
  { unfold refreshAccount, getBalance. by rewrite Ha, Hwei. }
  destruct (float64_ne balance newBalance); repeat split; done.
Qed.

Lemma payload_dom (account address : string) (newBalance balance : float64) :
  dom (balanceChangePayload account address newBalance balance)
  = ({[ "account"; "address"; "balance"; "newBalance" ]} : gset string).
Proof.
  unfold balanceChangePayload. rewrite !dom_insert_L, dom_empty_L.
  set_solver.
Qed.

(** C3, as amended: the payload of every event a sweep publishes has
    exactly the keys account, address, balance and newBalance.  Under
    balance it carries the value the snapshot held for the account before
    the sweep, under account and address the account and its address, and
    under newBalance, when the lookup for that address succeeded, the
    balance just looked up. *)
Theorem published_payload (client : Client) (order : list string)
    (event : notifier.Event) :
  order ≡ₚ keys (accountBalanceMap client) →
  event ∈ published client (refreshOver weiToEther order client) →
  ∃ (account address : string) (balance newBalance : float64),
    accountBalanceMap client !! account = Some balance
    ∧ accountAddressMap client !! account = Some address
    ∧ dom (notifier.Payload event)
      = ({[ "account"; "address"; "balance"; "newBalance" ]} : gset string)
    ∧ notifier.Payload event !! "account" = Some (VString account)
    ∧ notifier.Payload event !! "address" = Some (VString address)
    ∧ notifier.Payload event !! "balance" = Some (VFloat64 balance)
    ∧ notifier.Payload event !! "newBalance" = Some (VFloat64 newBalance)
    ∧ ∀ wei, ethRpcClient client address = inl wei →
             newBalance = weiToEther wei.
Proof.
  intros Hord Hin.
  destruct (order_keys order _ Hord) as [Hnd _].
  destruct (published_origin order client event Hnd Hin)
    as (account & balance & _ & Hb & Hev).
  unfold outcome in Hev.
  destruct (accountAddressMap client !! account) as [address|] eqn:Ha;
    [|by apply elem_of_nil in Hev].
  destruct (float64_ne balance (getBalance weiToEther client address).1);
    [|by apply elem_of_nil in Hev].
  apply list_elem_of_singleton in Hev as ->.
  exists account, address, balance, (getBalance weiToEther client address).1.
  repeat split; try done; try apply payload_dom.
  intros wei Hwei. unfold getBalance. by rewrite Hwei.
Qed.

End Watcher.

(** ** Construction and listing *)

Section Seeding.

Variable weiToEther : Z → float64.

Lemma seedOver_cons (a address : string) (order : list (string * string))
    (c : Client) :
  seedOver weiToEther ((a, address) :: order) c
  = seedOver weiToEther order (seedAccount weiToEther a address c).
Proof. reflexivity. Qed.

(** Seeding an account stores what [getBalance] returned under its name and
    touches neither the node, the address map nor the notifier. *)
Lemma seedAccount_spec (a address : string) (c : Client) :
  ethRpcClient (seedAccount weiToEther a address c) = ethRpcClient c
  ∧ accountAddressMap (seedAccount weiToEther a address c)
    = accountAddressMap c
  ∧ noti (seedAccount weiToEther a address c) = noti c
  ∧ accountBalanceMap (seedAccount weiToEther a address c)
    = <[a := (getBalance weiToEther c address).1]> (accountBalanceMap c).
Proof.
  unfold seedAccount.
  by destruct (getBalance weiToEther c address) as [balance [err|]].
Qed.

Lemma seedOver_fixed (order : list (string * string)) (c : Client) :
  ethRpcClient (seedOver weiToEther order c) = ethRpcClient c
  ∧ accountAddressMap (seedOver weiToEther order c) = accountAddressMap c
  ∧ noti (seedOver weiToEther order c) = noti c.
Proof.
  revert c. induction order as [|[a address] order IH]; intros c; [done|].
  rewrite seedOver_cons.
  destruct (IH (seedAccount weiToEther a address c)) as (-> & -> & ->).
  destruct (seedAccount_spec a address c) as (? & ? & ? & _). done.
Qed.

Lemma seedOver_other (order : list (string * string)) (k : string)
    (c : Client) :
  k ∉ order.*1 →
  accountBalanceMap (seedOver weiToEther order c) !! k
  = accountBalanceMap c !! k.
Proof.
  revert c. induction order as [|[a address] order IH]; intros c Hk; [done|].
  cbn in Hk. apply not_elem_of_cons in Hk as [Hka Hk].
  rewrite seedOver_cons, (IH _ Hk).
  destruct (seedAccount_spec a address c) as (_ & _ & _ & ->).
  by rewrite lookup_insert_ne.
Qed.

Lemma seedOver_lookup (order : list (string * string)) (a address : string)
    (c : Client) :
  NoDup order.*1 → (a, address) ∈ order →
  accountBalanceMap (seedOver weiToEther order c) !! a
  = Some (getBalance weiToEther c address).1.
Proof.
  revert c. induction order as [|[x ax] order IH]; intros c Hnd Hin.
  { by apply elem_of_nil in Hin. }
  cbn in Hnd. apply NoDup_cons in Hnd as [Hx Hnd].
  rewrite seedOver_cons.
  destruct (seedAccount_spec x ax c) as (Hn & _ & _ & Hbal).
  apply elem_of_cons in Hin as [[= -> ->]|Hin].
  - rewrite (seedOver_other _ _ _ Hx), Hbal. by rewrite lookup_insert_eq.
  - rewrite (IH _ Hnd Hin). f_equal. f_equal. by apply getBalance_node.
Qed.

(** C6: when [NewClient] returns a client, its address map is the one read
    from the account file, the snapshot has one entry per account of that
    map, the entry holding what the balance lookup for the account's address
    returned, and no event has been sent on the notifier's channel. *)
Theorem NewClient_seeds (sys : System)
    (host walletDir accountFilePath logDir : string) (client : Client) :
  NewClient weiToEther sys host walletDir accountFilePath logDir
    = inl client →
  loadAccountMap sys accountFilePath = inl (accountAddressMap client)
  ∧ dom (accountBalanceMap client) = dom (accountAddressMap client)
  ∧ (∀ account address,
       accountAddressMap client !! account = Some address →
       accountBalanceMap client !! account
       = Some (getBalance weiToEther client address).1)
  ∧ notifier.eventChan (noti client) = [].
Proof.
  unfold NewClient.
  destruct (os_Stat sys accountFilePath) as [stat|]; [|done].
  destruct (IsRegular stat); [|done]. cbn [negb].
  destruct (loadAccountMap sys accountFilePath) as [accounts|]; [|done].
  destruct (os_Stat sys walletDir) as [stat'|]; [|done].
  destruct (IsDir stat'); [|done]. cbn [negb].
  destruct (rpc_Dial sys host) as [conn|]; [|done].
  destruct (os_OpenFile sys _); [done|].
  cbn [accountAddressMap]. intros [= <-].
  set (c0 := mkClient conn accounts ∅ notifier.New [] []).
  destruct (seedOver_fixed (map_to_list accounts) c0) as (Hn & Hm & Hnoti).
  rewrite Hm, Hnoti. cbn [accountAddressMap noti notifier.eventChan c0].
  assert (∀ account address, accounts !! account = Some address →
            accountBalanceMap (seedOver weiToEther (map_to_list accounts) c0)
              !! account
            = Some (getBalance weiToEther
                      (seedOver weiToEther (map_to_list accounts) c0)
                      address).1) as Hseed.
  { intros account address Ha.
    rewrite (getBalance_node weiToEther _ c0 address Hn).
    apply seedOver_lookup; [apply NoDup_fst_map_to_list|].
    by apply elem_of_map_to_list. }
  repeat split; try done.
  apply set_eq. intros account. rewrite !elem_of_dom. split.
  - intros [balance Hb].
    destruct (accounts !! account) as [address|] eqn:Ha; [by eexists|].
    rewrite seedOver_other in Hb;
      [by cbn [c0 accountBalanceMap] in Hb; rewrite lookup_empty in Hb|].
    intros ([k v] & -> & Hin)%list_elem_of_fmap.
    apply elem_of_map_to_list in Hin. cbn in Ha. congruence.
  - intros [address Ha]. rewrite (Hseed _ _ Ha). by eexists.
Qed.

Lemma listOver_cons (a address : string) (order : list (string * string))
    (st : Client * gmap string float64) :
  listOver weiToEther ((a, address) :: order) st
  = listOver weiToEther order (listAccount weiToEther a address st).
Proof. reflexivity. Qed.

(** One step of the listing: the entry written is the balance, or 0 when
    the lookup failed. *)
Lemma listAccount_spec (a address : string) (c : Client)
    (accounts : gmap string float64) :
  ethRpcClient (listAccount weiToEther a address (c, accounts)).1
    = ethRpcClient c
  ∧ (listAccount weiToEther a address (c, accounts)).2
    = <[a := match ethRpcClient c address with
             | inl wei => weiToEther wei
             | inr _ => 0%float
             end]> accounts.
Proof.
  unfold listAccount, getBalance.
  by destruct (ethRpcClient c address) as [wei|err].
Qed.

Lemma listOver_node (order : list (string * string))
    (st : Client * gmap string float64) :
  ethRpcClient (listOver weiToEther order st).1 = ethRpcClient st.1.
Proof.
  revert st. induction order as [|[a address] order IH]; intros [c accounts];
    [done|].
  rewrite listOver_cons, IH.
  by destruct (listAccount_spec a address c accounts) as [-> _].
Qed.

Lemma listOver_other (order : list (string * string)) (k : string)
    (st : Client * gmap string float64) :
  k ∉ order.*1 →
  (listOver weiToEther order st).2 !! k = st.2 !! k.
Proof.
  revert st. induction order as [|[a address] order IH]; intros [c accounts] Hk;
    [done|].
  cbn in Hk. apply not_elem_of_cons in Hk as [Hka Hk].
  rewrite listOver_cons, (IH _ Hk).
  destruct (listAccount_spec a address c accounts) as [_ ->].
  by rewrite lookup_insert_ne.
Qed.

Lemma listOver_lookup (order : list (string * string)) (a address : string)
    (st : Client * gmap string float64) :
  NoDup order.*1 → (a, address) ∈ order →
  (listOver weiToEther order st).2 !! a
  = Some (match ethRpcClient st.1 address with
          | inl wei => weiToEther wei
          | inr _ => 0%float
          end).
Proof.
  revert st. induction order as [|[x ax] order IH]; intros [c accounts] Hnd Hin.
  { by apply elem_of_nil in Hin. }
  cbn in Hnd. apply NoDup_cons in Hnd as [Hx Hnd].
  rewrite listOver_cons.
  destruct (listAccount_spec x ax c accounts) as [Hn Hacc].
  apply elem_of_cons in Hin as [[= -> ->]|Hin].
  - rewrite (listOver_other _ _ _ Hx), Hacc. by rewrite lookup_insert_eq.
  - rewrite (IH _ Hnd Hin). by rewrite Hn.
Qed.

(** C10: [ListAccountsMinConf] returns a nil error whatever the client and
    the argument; the map it returns has exactly the accounts of the address
    map, each with the balance looked up for its address, or with 0 when
    that lookup failed. *)
Theorem ListAccountsMinConf_total (client : Client) (conf : Z) :
  let result := (ListAccountsMinConf weiToEther client conf).2 in
  result.2 = None
  ∧ dom result.1 = dom (accountAddressMap client)
  ∧ ∀ name address,
      accountAddressMap client !! name = Some address →
      result.1 !! name
      = Some (match ethRpcClient client address with
              | inl wei => weiToEther wei
              | inr _ => 0%float
              end).
Proof.
  unfold ListAccountsMinConf.
  set (order := map_to_list (accountAddressMap client)).
  destruct (listOver weiToEther order (client, ∅)) as [c accounts] eqn:Hl.
  cbn.
  assert (∀ name address, accountAddressMap client !! name = Some address →
            accounts !! name
            = Some (match ethRpcClient client address with
                    | inl wei => weiToEther wei
                    | inr _ => 0%float
                    end)) as Hall.
  { intros name address Ha.
    change accounts with (c, accounts).2. rewrite <- Hl.
    apply (listOver_lookup order name address (client, ∅));
      [apply NoDup_fst_map_to_list|by apply elem_of_map_to_list]. }
  repeat split; try done.
  apply set_eq. intros name. rewrite !elem_of_dom. split.
  - intros [balance Hb].
    destruct (accountAddressMap client !! name) as [address|] eqn:Ha;
      [by eexists|].
    change accounts with (c, accounts).2 in Hb. rewrite <- Hl in Hb.
    rewrite listOver_other in Hb;
      [by cbn [snd] in Hb; rewrite lookup_empty in Hb|].
    intros ([k v] & -> & Hin)%list_elem_of_fmap.
    apply elem_of_map_to_list in Hin. cbn in Ha. congruence.
  - intros [address Ha]. rewrite (Hall _ _ Ha). by eexists.
Qed.

End Seeding.

(** ** Sending *)

(** C8: when the account argument is not itself a hex address, [SendFrom]
    returns the invalid-address error and hands no transaction to the node,
    whether or not the account is in the address map: the address found in
    the map is never used. *)
Theorem SendFrom_account_name (etherToWei : float64 → Z) (backend : Backend)
    (client : Client) (account hexToAddress : string) (amount : float64) :
  common.IsHexAddress account = false →
  SendFrom etherToWei backend client account hexToAddress amount
  = (client, [], Some ErrInvalidAddress).
Proof.
  intros Hhex. unfold SendFrom. rewrite Hhex. cbn [negb].
  by destruct (accountAddressMap client !! account).
Qed.

(** ** Splitting the event types *)

Lemma IndexByte_None (c : ascii) (s : string) :
  strings.IndexByte c s = None → strings.Count c s = 0.
Proof.
  induction s as [|a s IH]; [done|]. cbn.
  destruct (Ascii.eqb a c); [done|].
  destruct (strings.IndexByte c s); [done|]. intros _. by rewrite IH.
Qed.

(** The first separator cuts [s] into a piece without separator and a rest
    with one separator less. *)
Lemma IndexByte_Some (c : ascii) (s : string) (m : nat) :
  strings.IndexByte c s = Some m →
  s = strings.slice_to m s +:+ String c (strings.slice_from (m + 1) s)
  ∧ strings.IndexByte c (strings.slice_to m s) = None
  ∧ strings.Count c s = S (strings.Count c (strings.slice_from (m + 1) s)).
Proof.
  revert m. induction s as [|a s IH]; intros m; [done|]. cbn.
  destruct (Ascii.eqb_spec a c) as [->|Hac].
  - intros [= <-]. done.
  - destruct (strings.IndexByte c s) as [m'|]; [|done].
    intros [= <-]. destruct (IH m' eq_refl) as (Hs & Hto & Hcount).
    cbn. apply Ascii.eqb_neq in Hac. rewrite Hac, Hto.
    repeat split; try done. rewrite Hs at 1. reflexivity.
Qed.

Lemma Join_cons (e : string) (rest : list string) (sep : string) :
  rest ≠ [] →
  strings.Join (e :: rest) sep = e +:+ sep +:+ strings.Join rest sep.
Proof. by destruct rest. Qed.

Lemma genSplit_nonempty (sep : ascii) (n : nat) (s : string) :
  strings.genSplit sep n s ≠ [].
Proof. destruct n; cbn; [done|]. by destruct (strings.IndexByte sep s). Qed.

(** With enough cuts allowed, [genSplit] cuts at every separator. *)
Lemma genSplit_all (sep : ascii) (n : nat) (s : string) :
  (strings.Count sep s ≤ n)%nat →
  strings.Join (strings.genSplit sep n s) (String sep "") = s
  ∧ Forall (λ piece, strings.IndexByte sep piece = None)
      (strings.genSplit sep n s)
  ∧ length (strings.genSplit sep n s) = strings.Count sep s + 1.
Proof.
  revert s. induction n as [|n IH]; intros s Hn.
  - cbn. repeat split; [|lia].
    constructor; [|done].
    destruct (strings.IndexByte sep s) as [m|] eqn:Hm; [|done].
    apply IndexByte_Some in Hm as (_ & _ & ?). lia.
  - cbn [strings.genSplit].
    destruct (strings.IndexByte sep s) as [m|] eqn:Hm.
    + destruct (IndexByte_Some _ _ _ Hm) as (Hs & Hto & Hcount).
      destruct (IH (strings.slice_from (m + 1) s)) as (Hjoin & Hall & Hlen);
        [lia|].
      rewrite Join_cons by apply genSplit_nonempty.
      rewrite Hjoin. cbn [length]. repeat split; [by rewrite Hs at 3| |lia].
      by constructor.
    + rewrite (IndexByte_None _ _ Hm). repeat split. by constructor.
Qed.

Lemma Count_le_length (sep : ascii) (s : string) :
  (strings.Count sep s ≤ String.length s)%nat.
Proof.
  induction s as [|a s IH]; [done|]. cbn. destruct (Ascii.eqb a sep); lia.
Qed.

Lemma SplitN_all (s : string) (sep : ascii) :
  strings.SplitN s sep (-1) = strings.genSplit sep (strings.Count sep s) s.
Proof.
  unfold strings.SplitN.
  change (-1 =? 0)%Z with false. change (-1 <? 0)%Z with true. cbv iota.
  pose proof (Count_le_length sep s) as Hle.
  destruct (Nat.ltb_spec (String.length s + 1) (strings.Count sep s + 1));
    [lia|].
  f_equal. lia.
Qed.

(** ** The install route *)

(** C7: for a request that binds, the receiver stored under the new id has
    the request's endpoint and retry count, and its event types are the
    request's [eventTypes] cut at every comma: joined by commas they give
    the string back, no piece holds a comma, and there is one piece more
    than there are commas. *)
Theorem install_well_formed (uuidIns : string)
    (c : gin.Context installParams) (client : Client)
    (params : installParams) :
  gin.ShouldBind c = inl params →
  let client' := (installHandler uuidIns c client).1 in
  ∃ receiver,
    notifier.receivers (noti client') !! uuidIns = Some receiver
    ∧ notifier.Endpoint receiver = Endpoint params
    ∧ notifier.RetryCount receiver = RetryCount params
    ∧ notifier.EventTypes receiver
      = strings.SplitN (EventTypes params) "," (-1)
    ∧ strings.Join (notifier.EventTypes receiver) "," = EventTypes params
    ∧ Forall (λ type, strings.IndexByte "," type = None)
        (notifier.EventTypes receiver)
    ∧ length (notifier.EventTypes receiver)
      = strings.Count "," (EventTypes params) + 1.
Proof.
  intros Hbind. unfold installHandler. rewrite Hbind.
  unfold set_noti, notifier.InstallReceiver, notifier.NewReceiver.
  cbn [fst noti notifier.receivers].
  eexists. rewrite lookup_insert_eq. split; [done|].
  cbn [notifier.Endpoint notifier.RetryCount notifier.EventTypes].
  rewrite SplitN_all.
  destruct (genSplit_all "," (strings.Count "," (EventTypes params))
              (EventTypes params)) as (? & ? & ?); [lia|].
  done.
Qed.

(** C9: a request that binds with an empty [eventTypes] installs a receiver
    whose list of event types has one member, the empty string. *)
Theorem install_empty_eventTypes (uuidIns endpoint : string) (retryCount : N)
    (written : list gin.Response) (client : Client) :
  let c := gin.mkContext (inl (mkInstallParams retryCount endpoint ""))
             written in
  notifier.receivers (noti (installHandler uuidIns c client).1) !! uuidIns
  = Some (notifier.mkReceiver endpoint [""] retryCount).
Proof. cbn. by rewrite lookup_insert_eq. Qed.

(** C4, as amended: the install handler writes nothing to the response,
    whatever the request.  A request whose body fails to bind leaves the
    client, and with it every subscription, as it was.  A request whose
    body binds is not checked further: a receiver with the request's
    endpoint, be it empty or not a URL, is stored under the new id, and the
    receivers under other ids stay. *)
Theorem install_unvalidated (uuidIns : string)
    (c : gin.Context installParams) (client : Client) :
  let client' := (installHandler uuidIns c client).1 in
  (installHandler uuidIns c client).2 = c
  ∧ match gin.ShouldBind c with
    | inr _ => client' = client
    | inl params =>
        notifier.receivers (noti client') !! uuidIns
        = Some (notifier.NewReceiver (Endpoint params)
                  (strings.SplitN (EventTypes params) "," (-1))
                  (RetryCount params))
        ∧ ∀ id, id ≠ uuidIns →
                notifier.receivers (noti client') !! id
                = notifier.receivers (noti client) !! id
    end.
Proof.
  unfold installHandler. destruct (gin.ShouldBind c) as [params|err]; cbn.
  - split; [done|]. split; [by rewrite lookup_insert_eq|].
    intros id Hid. by rewrite lookup_insert_ne.
  - done.
Qed.

(** ** The event bus *)

Section Bus.

Import notifier.

Variable capacity : nat.

(** No step loses, duplicates or reorders an event. *)
Lemma step_all (s s' : bus.State) :
  bus.step capacity s s' → bus.all s' = bus.all s.
Proof.
  destruct 1; unfold bus.all; cbn; by rewrite <- ?app_assoc.
Qed.

(** Every step does one unit of the work left. *)
Lemma step_work (s s' : bus.State) :
  bus.step capacity s s' → S (bus.work s') = bus.work s.
Proof.
  destruct 1; unfold bus.work; cbn; rewrite ?length_app; cbn; lia.
Qed.

Lemma step_bounded (s s' : bus.State) :
  bus.step capacity s s' →
  length (bus.buffer s) ≤ capacity → length (bus.buffer s') ≤ capacity.
Proof. destruct 1; cbn; rewrite ?length_app; cbn; lia. Qed.

(** With a full buffer the producer waits: the only step is the
    consumer's. *)
Lemma step_full (s s' : bus.State) :
  bus.step capacity s s' →
  length (bus.buffer s) = capacity →
  bus.pending s' = bus.pending s
  ∧ bus.dispatched s' = bus.dispatched s ++ take 1 (bus.buffer s).
Proof. destruct 1; cbn; [lia|done]. Qed.

Lemma rtc_all (s s' : bus.State) :
  rtc (bus.step capacity) s s' → bus.all s' = bus.all s.
Proof.
  induction 1 as [|s1 s2 s3 Hstep _ IH]; [done|].
  by rewrite IH, (step_all _ _ Hstep).
Qed.

Lemma rtc_bounded (s s' : bus.State) :
  rtc (bus.step capacity) s s' →
  length (bus.buffer s) ≤ capacity → length (bus.buffer s') ≤ capacity.
Proof.
  induction 1 as [|s1 s2 s3 Hstep _ IH]; [done|].
  intros Hb. apply IH. by apply (step_bounded s1).
Qed.

Lemma nsteps_work (n : nat) (s s' : bus.State) :
  nsteps (bus.step capacity) n s s' → bus.work s' + n = bus.work s.
Proof.
  induction 1 as [|n s1 s2 s3 Hstep _ IH]; [lia|].
  apply step_work in Hstep. lia.
Qed.

(** While something is pending or buffered, someone can move. *)
Lemma step_progress (s : bus.State) :
  1 ≤ capacity → bus.work s ≠ 0 → red (bus.step capacity) s.
Proof.
  intros Hcap. destruct s as [p b d]. unfold bus.work. cbn.
  destruct b as [|e b].
  - destruct p as [|e p]; [done|]. intros _.
    exists (bus.mkState p ([] ++ [e]) d). constructor. cbn. lia.
  - intros _. exists (bus.mkState p b (d ++ [e])). constructor.
Qed.

Lemma work_done (s : bus.State) :
  bus.work s = 0 →
  bus.pending s = [] ∧ bus.buffer s = [] ∧ bus.dispatched s = bus.all s.
Proof.
  destruct s as [p b d]. unfold bus.work, bus.all. cbn. intros Hw.
  destruct p; [|cbn in Hw; lia]. destruct b; [|cbn in Hw; lia].
  by rewrite !app_nil_r.
Qed.

(** From every state the run can be completed, in as many steps as there
    is work left. *)
Lemma run_completes (s : bus.State) :
  1 ≤ capacity →
  ∃ s', nsteps (bus.step capacity) (bus.work s) s s'
        ∧ bus.pending s' = [] ∧ bus.buffer s' = []
        ∧ bus.dispatched s' = bus.all s.
Proof.
  intros Hcap. remember (bus.work s) as w eqn:Hw. revert s Hw.
  induction w as [|w IH]; intros s Hw.
  - exists s. split; [constructor|]. by apply work_done.
  - destruct (step_progress s Hcap) as [s1 Hstep]; [lia|].
    pose proof (step_work _ _ Hstep) as Hw1.
    destruct (IH s1) as (s' & Hrun & Hp & Hb & Hd); [lia|].
    exists s'. split; [by econstructor|].
    by rewrite <- (step_all _ _ Hstep).
Qed.

(** C5: on a bus of capacity at least one, in every state a run can reach
    from the publication of [events]: every event is dispatched, buffered
    or still pending with the producer, in publication order; the buffer
    holds at most [capacity] events; when it is full the only step is the
    consumer's and the producer keeps its pending events; no run goes on
    for more steps than there is work left; a run can stop only when every
    event has been dispatched; and the run can always be completed to the
    state where all the events have been dispatched, in order. *)
Theorem bus_backpressure (events : list Event) (s : bus.State) :
  1 ≤ capacity →
  rtc (bus.step capacity) (bus.init events) s →
  bus.dispatched s ++ bus.buffer s ++ bus.pending s = events
  ∧ length (bus.buffer s) ≤ capacity
  ∧ (length (bus.buffer s) = capacity →
     ∀ s', bus.step capacity s s' →
           bus.pending s' = bus.pending s
           ∧ bus.dispatched s' = bus.dispatched s ++ take 1 (bus.buffer s))
  ∧ (∀ n s', nsteps (bus.step capacity) n s s' →
             n ≤ 2 * length events)
  ∧ (nf (bus.step capacity) s → bus.dispatched s = events)
  ∧ ∃ s', rtc (bus.step capacity) s s'
          ∧ bus.pending s' = [] ∧ bus.buffer s' = []
          ∧ bus.dispatched s' = events.
Proof.
  intros Hcap Hrun.
  pose proof (rtc_all _ _ Hrun) as Hall. cbn in Hall. fold (bus.all s).
  split; [done|]. split; [by apply (rtc_bounded _ _ Hrun); cbn; lia|].
  split; [by intros Hfull s' Hstep; apply step_full|].
  split; [|split].
  - intros n s' Hn. apply nsteps_work in Hn.
    apply rtc_nsteps in Hrun as [m Hm]. apply nsteps_work in Hm.
    unfold bus.work in Hn, Hm. cbn in Hm. lia.
  - intros Hnf. destruct (decide (bus.work s = 0)) as [Hw|Hw].
    + apply work_done in Hw as (_ & _ & ->). done.
    + by destruct Hnf; apply step_progress.
  - destruct (run_completes s Hcap) as (s' & Hs' & Hp & Hb & Hd).
    exists s'. rewrite Hd. split; [by eapply rtc_nsteps_2|done].
Qed.

End Bus.

(** ** More on the sweep *)

Section Sweep.

Variable weiToEther : Z → float64.

(** A visit writes only to the snapshot, the channel and the package log. *)
Lemma refreshEntry_frame (a : string) (c : Client) :
  dom (accountBalanceMap (refreshEntry weiToEther a c))
    = dom (accountBalanceMap c)
  ∧ notifier.receivers (noti (refreshEntry weiToEther a c))
    = notifier.receivers (noti c)
  ∧ l (refreshEntry weiToEther a c) = l c.
Proof.
  unfold refreshEntry, refreshAccount.
  destruct (accountBalanceMap c !! a) as [b|] eqn:Hb; [|done].
  destruct (accountAddressMap c !! a) as [address|]; [|done].
  destruct (getBalance weiToEther c address) as [nb [e|]];
    destruct (float64_ne b nb); cbn; repeat split;
    try done; by apply dom_insert_lookup_L.
Qed.

(** The sweep in one piece, for an order that enumerates the snapshot:
    each entry becomes what its visit leaves, and the events are those of
    the visits, in visiting order. *)
Lemma refreshOver_lookup_all (order : list string) (c : Client) (k : string) :
  order ≡ₚ keys (accountBalanceMap c) →
  accountBalanceMap (refreshOver weiToEther order c) !! k
  = (λ b, (outcome weiToEther c k b).1) <$> accountBalanceMap c !! k.
Proof.
  intros Hord. destruct (order_keys order _ Hord) as [Hnd Hin].
  destruct (accountBalanceMap c !! k) as [b|] eqn:Hb; cbn.
  - assert (k ∈ order) as Hk by (apply Hin; eauto).
    by destruct (refreshOver_outcome weiToEther order k b c Hnd Hk Hb).
  - assert (k ∉ order) as Hk.
    { intros Hk%Hin. rewrite Hb in Hk. by destruct Hk. }
    destruct (refreshOver_other weiToEther order k c Hk) as [-> _]. done.
Qed.

Lemma refreshOver_published_all (order : list string) (c : Client) :
  NoDup order →
  published c (refreshOver weiToEther order c)
  = concat (List.map
              (λ a, match accountBalanceMap c !! a with
                    | Some b => (outcome weiToEther c a b).2
                    | None => []
                    end) order).
Proof.
  intros Hnd. unfold published.
  by rewrite (refreshOver_events weiToEther order c Hnd), drop_app_length.
Qed.

Lemma outcome_events_length (c : Client) (a : string) (b : float64) :
  length (outcome weiToEther c a b).2 ≤ 1.
Proof.
  unfold outcome. destruct (accountAddressMap c !! a) as [address|];
    [|cbn; lia].
  destruct (float64_ne b (getBalance weiToEther c address).1); cbn; lia.
Qed.

(** The events about [a] that a sweep publishes are those of [a]'s visit. *)
Lemma refreshOver_eventsFor (order : list string) (c : Client) (a : string) :
  order ≡ₚ keys (accountBalanceMap c) →
  eventsFor a (published c (refreshOver weiToEther order c))
  = match accountBalanceMap c !! a with
    | Some b => (outcome weiToEther c a b).2
    | None => []
    end.
Proof.
  intros Hord. destruct (order_keys order _ Hord) as [Hnd Hin].
  destruct (accountBalanceMap c !! a) as [b|] eqn:Hb.
  - assert (a ∈ order) as Ha by (apply Hin; eauto).
    by destruct (refreshOver_outcome weiToEther order a b c Hnd Ha Hb).
  - assert (a ∉ order) as Ha.
    { intros Ha%Hin. rewrite Hb in Ha. by destruct Ha. }
    destruct (refreshOver_other weiToEther order a c Ha) as [_ Hev].
    rewrite (refreshOver_published weiToEther order c) in Hev.
    unfold eventsFor in *. rewrite List.filter_app in Hev.
    rewrite <- (app_nil_r (List.filter _ (notifier.eventChan (noti c))))
      in Hev at 2.
    by apply app_inv_head in Hev.
Qed.

(** X1: a sweep, in whatever order and over whatever keys, neither adds an
    account to the snapshot nor removes one, and it leaves the address
    map, the node, the receiver registry and the client's own log as they
    were. *)
Theorem refreshOver_frame (order : list string) (client : Client) :
  let client' := refreshOver weiToEther order client in
  dom (accountBalanceMap client') = dom (accountBalanceMap client)
  ∧ accountAddressMap client' = accountAddressMap client
  ∧ ethRpcClient client' = ethRpcClient client
  ∧ notifier.receivers (noti client') = notifier.receivers (noti client)
  ∧ l client' = l client.
Proof.
  cbn zeta. revert client.
  induction order as [|a order IH]; intros client; [done|].
  rewrite refreshOver_cons.
  destruct (IH (refreshEntry weiToEther a client))
    as (-> & -> & -> & -> & ->).
  destruct (refreshEntry_frame a client) as (? & ? & ?).
  destruct (refreshEntry_fixed weiToEther a client) as [? ?]. done.
Qed.

(** X2: a sweep publishes at most one event per account, hence no more
    events than the snapshot has accounts. *)
Theorem refresh_one_event_per_account (client : Client)
    (order : list string) :
  order ≡ₚ keys (accountBalanceMap client) →
  let sent := published client (refreshOver weiToEther order client) in
  (∀ account, length (eventsFor account sent) ≤ 1)
  ∧ length sent ≤ size (accountBalanceMap client).
Proof.
  intros Hord sent. split.
  - intros account. unfold sent. rewrite (refreshOver_eventsFor _ _ _ Hord).
    destruct (accountBalanceMap client !! account) as [b|]; [|cbn; lia].
    apply outcome_events_length.
  - destruct (order_keys order _ Hord) as [Hnd _].
    unfold sent. rewrite (refreshOver_published_all order client Hnd).
    assert (size (accountBalanceMap client) = length order) as ->.
    { rewrite Hord. unfold keys.
      by rewrite length_fmap, length_map_to_list. }
    clear Hord Hnd sent. induction order as [|a order IH]; [done|].
    cbn. rewrite length_app.
    destruct (accountBalanceMap client !! a) as [b|]; cbn; [|lia].
    pose proof (outcome_events_length client a b). lia.
Qed.

(** X3: an account that is in the snapshot but has no address is passed
    over: its entry keeps its value and no event is published for it. *)
Theorem refresh_skips_unknown_address (client : Client)
    (order : list string) (account : string) (balance : float64) :
  order ≡ₚ keys (accountBalanceMap client) →
  accountBalanceMap client !! account = Some balance →
  accountAddressMap client !! account = None →
  let client' := refreshOver weiToEther order client in
  accountBalanceMap client' !! account = Some balance
  ∧ eventsFor account (published client client') = [].
Proof.
  intros Hord Hb Ha client'. unfold client'.
  rewrite (refreshOver_lookup_all _ _ _ Hord),
    (refreshOver_eventsFor _ _ _ Hord), Hb.
  unfold outcome. by rewrite Ha.
Qed.

(** X4: every event a sweep publishes reports a change: the balance it
    carries and the new balance differ under Go's [!=], the balance is the
    one the snapshot held before the sweep, and after the sweep the
    snapshot holds the new balance for the account the event names. *)
Theorem published_event_matches_snapshot (client : Client)
    (order : list string) (event : notifier.Event) :
  order ≡ₚ keys (accountBalanceMap client) →
  let client' := refreshOver weiToEther order client in
  event ∈ published client client' →
  ∃ (account : string) (balance newBalance : float64),
    notifier.Payload event !! "account" = Some (VString account)
    ∧ notifier.Payload event !! "balance" = Some (VFloat64 balance)
    ∧ notifier.Payload event !! "newBalance" = Some (VFloat64 newBalance)
    ∧ accountBalanceMap client !! account = Some balance
    ∧ accountBalanceMap client' !! account = Some newBalance
    ∧ float64_ne balance newBalance = true.
Proof.
  intros Hord client' Hin.
  destruct (order_keys order _ Hord) as [Hnd _].
  destruct (published_origin weiToEther order client event Hnd Hin)
    as (account & balance & _ & Hb & Hev).
  pose proof (refreshOver_lookup_all order client account Hord) as Hafter.
  rewrite Hb in Hafter. cbn in Hafter. fold client' in Hafter.
  unfold outcome in Hev, Hafter.
  destruct (accountAddressMap client !! account) as [address|];
    [|by apply elem_of_nil in Hev].
  destruct (float64_ne balance (getBalance weiToEther client address).1)
    eqn:Hne; [|by apply elem_of_nil in Hev].
  apply list_elem_of_singleton in Hev as ->.
  by exists account, balance, (getBalance weiToEther client address).1.
Qed.

(** X5: an entry of the snapshot changes only when an event is published
    for its account: where a sweep publishes nothing for an account, the
    account's entry is what it was. *)
Theorem refresh_silent_entry_unchanged (client : Client)
    (order : list string) (account : string) :
  order ≡ₚ keys (accountBalanceMap client) →
  let client' := refreshOver weiToEther order client in
  eventsFor account (published client client') = [] →
  accountBalanceMap client' !! account = accountBalanceMap client !! account.
Proof.
  intros Hord client'. unfold client'.
  rewrite (refreshOver_lookup_all _ _ _ Hord),
    (refreshOver_eventsFor _ _ _ Hord).
  destruct (accountBalanceMap client !! account) as [b|]; [|done].
  cbn. unfold outcome.
  destruct (accountAddressMap client !! account) as [address|]; [|done].
  by destruct (float64_ne b (getBalance weiToEther client address).1).
Qed.

(** X6: the visiting order, which Go leaves open, does not matter for the
    result: two sweeps from the same client in different orders leave the
    same snapshot and publish the same events, up to their order in the
    channel. *)
Theorem refresh_order_irrelevant (client : Client)
    (order1 order2 : list string) :
  order1 ≡ₚ keys (accountBalanceMap client) →
  order2 ≡ₚ keys (accountBalanceMap client) →
  accountBalanceMap (refreshOver weiToEther order1 client)
    = accountBalanceMap (refreshOver weiToEther order2 client)
  ∧ published client (refreshOver weiToEther order1 client)
    ≡ₚ published client (refreshOver weiToEther order2 client).
Proof.
  intros H1 H2. split.
  - apply map_eq. intros k.
    by rewrite (refreshOver_lookup_all _ _ _ H1),
      (refreshOver_lookup_all _ _ _ H2).
  - destruct (order_keys order1 _ H1) as [Hnd1 _].
    destruct (order_keys order2 _ H2) as [Hnd2 _].
    rewrite (refreshOver_published_all order1 client Hnd1),
      (refreshOver_published_all order2 client Hnd2).
    rewrite <- !List.flat_map_concat_map.
    apply Permutation_flat_map. by rewrite H1, H2.
Qed.

(** A sweep over a snapshot whose every visit is silent publishes nothing
    and changes nothing. *)
Lemma refreshOver_quiet (order : list string) (c : Client) :
  order ≡ₚ keys (accountBalanceMap c) →
  (∀ a b, accountBalanceMap c !! a = Some b →
          outcome weiToEther c a b = (b, [])) →
  published c (refreshOver weiToEther order c) = []
  ∧ accountBalanceMap (refreshOver weiToEther order c) = accountBalanceMap c.
Proof.
  intros Hord Hquiet. destruct (order_keys order _ Hord) as [Hnd _]. split.
  - rewrite (refreshOver_published_all order c Hnd).
    clear Hord Hnd. induction order as [|a order IH]; [done|].
    cbn. rewrite IH, app_nil_r.
    destruct (accountBalanceMap c !! a) as [b|] eqn:Hb; [|done].
    by rewrite (Hquiet a b Hb).
  - apply map_eq. intros k. rewrite (refreshOver_lookup_all _ _ _ Hord).
    destruct (accountBalanceMap c !! k) as [b|] eqn:Hb; [|done].
    cbn. by rewrite (Hquiet k b Hb).
Qed.

(** X7: sweeping twice against the same answers of the node is the same
    as sweeping once, as long as no balance converts to NaN: the second
    sweep publishes no event and leaves the snapshot as the first one left
    it. *)
Theorem refresh_idempotent (client : Client) (order order' : list string) :
  order ≡ₚ keys (accountBalanceMap client) →
  let client' := refreshOver weiToEther order client in
  order' ≡ₚ keys (accountBalanceMap client') →
  (∀ account address wei,
     accountAddressMap client !! account = Some address →
     ethRpcClient client address = inl wei →
     PrimFloat.is_nan (weiToEther wei) = false) →
  published client' (refreshOver weiToEther order' client') = []
  ∧ accountBalanceMap (refreshOver weiToEther order' client')
    = accountBalanceMap client'.
Proof.
  intros Hord client' Hord' Hnan.
  apply (refreshOver_quiet order' client' Hord').
  intros a b' Hb'.
  destruct (refreshOver_fixed weiToEther order client) as [Hn Hm].
  fold client' in Hn, Hm.
  rewrite (outcome_fixed weiToEther client' client a b' Hn Hm).
  unfold client' in Hb'. rewrite (refreshOver_lookup_all _ _ _ Hord) in Hb'.
  destruct (accountBalanceMap client !! a) as [b|]; [|done].
  cbn in Hb'. injection Hb' as <-. unfold outcome.
  destruct (accountAddressMap client !! a) as [address|] eqn:Ha; [|done].
  unfold getBalance.
  destruct (ethRpcClient client address) as [wei|err] eqn:Hrpc; cbn.
  - destruct (float64_ne b (weiToEther wei)) eqn:Hne; cbn.
    + by rewrite float64_ne_same, (Hnan a address wei Ha Hrpc).
    + by rewrite Hne.
  - destruct (float64_ne b 0%float) eqn:Hne; cbn; [done|by rewrite Hne].
Qed.

End Sweep.

(** ** More on construction and on the queries *)

Section Construction.

Variable weiToEther : Z → float64.

(** [NewClient] returns a client exactly when its five checks pass, and
    the client is then the seeded one. *)
Lemma NewClient_inl (sys : System)
    (host walletDir accountFilePath logDir : string) (client : Client) :
  NewClient weiToEther sys host walletDir accountFilePath logDir = inl client
  ↔ ∃ stat accounts stat' conn,
      os_Stat sys accountFilePath = inl stat ∧ IsRegular stat = true
      ∧ loadAccountMap sys accountFilePath = inl accounts
      ∧ os_Stat sys walletDir = inl stat' ∧ IsDir stat' = true
      ∧ rpc_Dial sys host = inl conn
      ∧ os_OpenFile sys (filepath_Join sys logDir "eth.log") = None
      ∧ client = seedOver weiToEther (map_to_list accounts)
                   (mkClient conn accounts ∅ notifier.New [] []).
Proof.
  unfold NewClient. split.
  - destruct (os_Stat sys accountFilePath) as [stat|]; [|done].
    destruct (IsRegular stat) eqn:Hreg; [|done]. cbn [negb].
    destruct (loadAccountMap sys accountFilePath) as [accounts|]; [|done].
    destruct (os_Stat sys walletDir) as [stat'|]; [|done].
    destruct (IsDir stat') eqn:Hdir; [|done]. cbn [negb].
    destruct (rpc_Dial sys host) as [conn|]; [|done].
    destruct (os_OpenFile sys _); [done|].
    intros [= <-]. by exists stat, accounts, stat', conn.
  - intros (stat & accounts & stat' & conn & -> & -> & -> & -> & -> & ->
            & -> & ->). done.
Qed.

(** The snapshot a seeding loop leaves, for an order that enumerates the
    address map. *)
Lemma seedOver_lookup_all (order : list (string * string)) (c : Client)
    (k : string) :
  order ≡ₚ map_to_list (accountAddressMap c) →
  accountBalanceMap (seedOver weiToEther order c) !! k
  = match accountAddressMap c !! k with
    | Some address => Some (getBalance weiToEther c address).1
    | None => accountBalanceMap c !! k
    end.
Proof.
  intros Hord.
  assert (NoDup order.*1) as Hnd.
  { rewrite Hord. apply NoDup_fst_map_to_list. }
  destruct (accountAddressMap c !! k) as [address|] eqn:Hk.
  - apply seedOver_lookup; [done|].
    rewrite Hord. by apply elem_of_map_to_list.
  - apply seedOver_other. rewrite Hord.
    intros ([k' v] & -> & Hin)%list_elem_of_fmap.
    apply elem_of_map_to_list in Hin. cbn in Hk. congruence.
Qed.

(** X8: [NewClient] returns a client exactly when the account file is a
    regular file that can be read and decoded, the wallet directory is a
    directory, the node can be dialled and the log file can be opened.
    Whether the balance lookups of the seeding succeed plays no part. *)
Theorem NewClient_succeeds_iff (sys : System)
    (host walletDir accountFilePath logDir : string) :
  (∃ client,
     NewClient weiToEther sys host walletDir accountFilePath logDir
     = inl client)
  ↔ ∃ stat accounts stat' conn,
      os_Stat sys accountFilePath = inl stat ∧ IsRegular stat = true
      ∧ loadAccountMap sys accountFilePath = inl accounts
      ∧ os_Stat sys walletDir = inl stat' ∧ IsDir stat' = true
      ∧ rpc_Dial sys host = inl conn
      ∧ os_OpenFile sys (filepath_Join sys logDir "eth.log") = None.
Proof.
  split.
  - intros [client Hnew]. apply NewClient_inl in Hnew
      as (stat & accounts & stat' & conn & ? & ? & ? & ? & ? & ? & ? & _).
    by exists stat, accounts, stat', conn.
  - intros (stat & accounts & stat' & conn & ? & ? & ? & ? & ? & ? & ?).
    eexists. apply NewClient_inl.
    by exists stat, accounts, stat', conn.
Qed.

(** X9: whatever keeps [NewClient] from using the wallet directory, be it
    the error of [os.Stat] or a path that is not a directory, the caller
    gets [ErrNotDirectory]: the error of [os.Stat] is not passed on. *)
Theorem NewClient_wallet_directory (sys : System)
    (host walletDir accountFilePath logDir : string)
    (stat : FileInfo) (accounts : gmap string string) :
  os_Stat sys accountFilePath = inl stat → IsRegular stat = true →
  loadAccountMap sys accountFilePath = inl accounts →
  match os_Stat sys walletDir with
  | inr _ => True
  | inl stat' => IsDir stat' = false
  end →
  NewClient weiToEther sys host walletDir accountFilePath logDir
  = inr ErrNotDirectory.
Proof.
  intros Hstat Hreg Hload Hdir. unfold NewClient.
  rewrite Hstat, Hreg, Hload. cbn [negb].
  destruct (os_Stat sys walletDir) as [stat'|]; [|done]. by rewrite Hdir.
Qed.

(** X10: the order in which the seeding loop ranges over the address map
    does not matter for the snapshot it leaves. *)
Theorem seed_order_irrelevant (client : Client)
    (order1 order2 : list (string * string)) :
  order1 ≡ₚ map_to_list (accountAddressMap client) →
  order2 ≡ₚ map_to_list (accountAddressMap client) →
  accountBalanceMap (seedOver weiToEther order1 client)
  = accountBalanceMap (seedOver weiToEther order2 client).
Proof.
  intros H1 H2. apply map_eq. intros k.
  by rewrite (seedOver_lookup_all _ _ _ H1), (seedOver_lookup_all _ _ _ H2).
Qed.

(** X11: the sweep the watcher runs when it starts, right after
    [NewClient], finds the node answering as it did during the seeding and
    therefore publishes nothing and changes nothing, as long as no balance
    converts to NaN. *)
Theorem first_sweep_silent (sys : System)
    (host walletDir accountFilePath logDir : string) (client : Client)
    (order : list string) :
  NewClient weiToEther sys host walletDir accountFilePath logDir
    = inl client →
  order ≡ₚ keys (accountBalanceMap client) →
  (∀ account address wei,
     accountAddressMap client !! account = Some address →
     ethRpcClient client address = inl wei →
     PrimFloat.is_nan (weiToEther wei) = false) →
  published client (refreshOver weiToEther order client) = []
  ∧ accountBalanceMap (refreshOver weiToEther order client)
    = accountBalanceMap client.
Proof.
  intros Hnew Hord Hnan.
  apply (refreshOver_quiet weiToEther order client Hord).
  intros a b Hb.
  apply NewClient_inl in Hnew
    as (_ & accounts & _ & conn & _ & _ & _ & _ & _ & _ & _ & Hclient).
  set (c0 := mkClient conn accounts ∅ notifier.New [] []) in Hclient.
  destruct (seedOver_fixed weiToEther (map_to_list accounts) c0)
    as (Hn & Hm & _).
  rewrite <- Hclient in Hn, Hm.
  pose proof (seedOver_lookup_all (map_to_list accounts) c0 a
                (reflexivity _)) as Hseed.
  rewrite <- Hclient, Hb in Hseed. unfold outcome. rewrite Hm.
  destruct (accountAddressMap c0 !! a) as [address|] eqn:Ha; [|done].
  rewrite <- (getBalance_node weiToEther client c0 address Hn) in Hseed.
  injection Hseed as ->. rewrite float64_ne_same.
  assert (PrimFloat.is_nan (getBalance weiToEther client address).1 = false)
    as ->; [|done].
  unfold getBalance.
  destruct (ethRpcClient client address) as [wei|err] eqn:Hrpc; [|done].
  apply (Hnan a address wei); [|done]. by rewrite Hm.
Qed.

(** The listing for an order that enumerates the address map. *)
Lemma listOver_lookup_all (order : list (string * string)) (c : Client)
    (k : string) :
  order ≡ₚ map_to_list (accountAddressMap c) →
  (listOver weiToEther order (c, ∅)).2 !! k
  = (λ address, match ethRpcClient c address with
                | inl wei => weiToEther wei
                | inr _ => 0%float
                end) <$> accountAddressMap c !! k.
Proof.
  intros Hord.
  assert (NoDup order.*1) as Hnd.
  { rewrite Hord. apply NoDup_fst_map_to_list. }
  destruct (accountAddressMap c !! k) as [address|] eqn:Hk; cbn.
  - apply (listOver_lookup weiToEther order k address (c, ∅)); [done|].
    rewrite Hord. by apply elem_of_map_to_list.
  - rewrite listOver_other; [done|]. rewrite Hord.
    intros ([k' v] & -> & Hin)%list_elem_of_fmap.
    apply elem_of_map_to_list in Hin. cbn in Hk. congruence.
Qed.

(** A step of the listing writes only to the client's own log. *)
Lemma listOver_frame (order : list (string * string))
    (st : Client * gmap string float64) :
  accountAddressMap (listOver weiToEther order st).1 = accountAddressMap st.1
  ∧ accountBalanceMap (listOver weiToEther order st).1
    = accountBalanceMap st.1
  ∧ noti (listOver weiToEther order st).1 = noti st.1
  ∧ log (listOver weiToEther order st).1 = log st.1.
Proof.
  revert st. induction order as [|[a address] order IH];
    intros [c accounts]; [done|].
  rewrite listOver_cons.
  destruct (IH (listAccount weiToEther a address (c, accounts)))
    as (-> & -> & -> & ->).
  unfold listAccount.
  by destruct (getBalance weiToEther c address) as [balance [err|]].
Qed.

(** X12: [ListAccountsMinConf] only reads: apart from the lines it adds to
    the client's own log, it leaves the client as it was, and the map it
    returns is the one any order of ranging over the accounts gives. *)
Theorem ListAccountsMinConf_reads_only (client : Client) (conf : Z)
    (order : list (string * string)) :
  order ≡ₚ map_to_list (accountAddressMap client) →
  let client' := (ListAccountsMinConf weiToEther client conf).1 in
  accountAddressMap client' = accountAddressMap client
  ∧ accountBalanceMap client' = accountBalanceMap client
  ∧ noti client' = noti client
  ∧ log client' = log client
  ∧ (ListAccountsMinConf weiToEther client conf).2.1
    = (listOver weiToEther order (client, ∅)).2.
Proof.
  intros Hord. unfold ListAccountsMinConf.
  pose proof (listOver_frame (map_to_list (accountAddressMap client))
                (client, ∅)) as Hframe.
  pose proof (λ k, listOver_lookup_all
                     (map_to_list (accountAddressMap client)) client k
                     (reflexivity _)) as Hall.
  destruct (listOver weiToEther (map_to_list (accountAddressMap client))
              (client, ∅)) as [c accounts].
  cbn in *. destruct Hframe as (? & ? & ? & ?). repeat split; try done.
  apply map_eq. intros k.
  by rewrite Hall, (listOver_lookup_all _ _ _ Hord).
Qed.

(** X13: the three queries by account name agree on which accounts exist:
    for an account that is not in the address map all three return
    [ErrAccountNotFound]; for one that is, [GetAddress] returns its
    address, [GetAddressesByAccount] the list of that one address, and
    [GetAccountInfo] fails only with the error of the balance lookup. *)
Theorem queries_agree (client : Client) (account : string) (minConf : Z) :
  match accountAddressMap client !! account with
  | None =>
      GetAddress client account = ("", Some ErrAccountNotFound)
      ∧ GetAddressesByAccount client account
        = ([], Some ErrAccountNotFound)
      ∧ GetAccountInfo weiToEther client account minConf
        = inr ErrAccountNotFound
  | Some address =>
      GetAddress client account = (address, None)
      ∧ GetAddressesByAccount client account = ([address], None)
      ∧ match ethRpcClient client address with
        | inl wei =>
            GetAccountInfo weiToEther client account minConf
            = inl (account, weiToEther wei, [address])
        | inr err =>
            GetAccountInfo weiToEther client account minConf = inr err
        end
  end.
Proof.
  unfold GetAddress, GetAddressesByAccount, GetAccountInfo, getBalance.
  destruct (accountAddressMap client !! account) as [address|]; [|done].
  by destruct (ethRpcClient client address).
Qed.

(** X14: [GetAccountInfo] and [ListAccountsMinConf] report the same
    balance for an account whose lookup succeeds; when the lookup fails,
    the first returns the error while the second lists the account with
    balance 0. *)
Theorem info_and_listing (client : Client) (account address : string)
    (minConf conf : Z) :
  accountAddressMap client !! account = Some address →
  let listed := (ListAccountsMinConf weiToEther client conf).2.1 in
  match GetAccountInfo weiToEther client account minConf with
  | inl (name, balance, addresses) =>
      name = account ∧ addresses = [address]
      ∧ listed !! account = Some balance
  | inr err =>
      ethRpcClient client address = inr err
      ∧ listed !! account = Some 0%float
  end.
Proof.
  intros Ha listed.
  assert (listed !! account
          = Some (match ethRpcClient client address with
                  | inl wei => weiToEther wei
                  | inr _ => 0%float
                  end)) as Hlisted.
  { unfold listed, ListAccountsMinConf.
    pose proof (listOver_lookup_all
                  (map_to_list (accountAddressMap client)) client account
                  (reflexivity _)) as Hall.
    destruct (listOver weiToEther (map_to_list (accountAddressMap client))
                (client, ∅)) as [c accounts].
    cbn in *. by rewrite Hall, Ha. }
  unfold GetAccountInfo, getBalance. rewrite Ha.
  by destruct (ethRpcClient client address).
Qed.

End Construction.

(** ** Account creation *)

(** Take the hypotheses of a case apart and close the goal from the
    pieces. *)
Ltac break_cases :=
  unfold not in *; intros;
  repeat match goal with
         | H : ∃ _, _ |- _ => destruct H
         | H : _ ∧ _ |- _ => destruct H
         | H : _ → False |- _ => destruct H
         end;
  simplify_eq; try congruence; eauto 10.

(** X15: [persistAccountMap] in full.  It returns nil exactly when the
    account file is a regular file that opens for writing and the encoder
    succeeds; it hands the address map to the encoder exactly when the
    file is regular and opens, and then that map only; and it panics
    exactly when [os.Stat] fails with an error that is not a not-exist
    error. *)
Theorem persistAccountMap_cases (disk : Storage) (accountFilePath : string)
    (client : Client) :
  let result := persistAccountMap disk accountFilePath client in
  let opens :=
    ∃ stat, st_Stat disk accountFilePath = inl stat ∧ IsRegular stat = true
            ∧ st_OpenFile disk accountFilePath = None in
  (result.2 = Returns None
   ↔ opens ∧ json_Encode disk (accountAddressMap client) = None)
  ∧ (result.1 = [accountAddressMap client] ↔ opens)
  ∧ (result.1 = [] ↔ ¬ opens)
  ∧ (result.2 = Panics
     ↔ ∃ err, st_Stat disk accountFilePath = inr err
              ∧ os_IsNotExist disk err = false).
Proof.
  unfold persistAccountMap.
  destruct (st_Stat disk accountFilePath) as [stat|err] eqn:Hstat;
    [destruct (IsRegular stat) eqn:Hreg; cbn [negb];
       [destruct (st_OpenFile disk accountFilePath) as [err|] eqn:Hopen|]
    |destruct (os_IsNotExist disk err) eqn:Hne];
    cbn; (split; [|split; [|split]]); split;
    try done; intros; break_cases.
Qed.

(** X16: creating an account that already has a non-empty address returns
    [ErrAccountExists]; the client is unchanged, the keystore creates no
    key and nothing is written. *)
Theorem CreateAccount_existing (store_NewAccount : string → string + error)
    (disk : Storage) (accountFilePath : string) (client : Client)
    (account address : string) :
  accountAddressMap client !! account = Some address →
  address ≠ "" →
  CreateAccount store_NewAccount disk accountFilePath client account
  = mkCreated client [] [] (Returns (keeper.zero, Some ErrAccountExists)).
Proof.
  intros Ha Hne. unfold CreateAccount, GetAddress. rewrite Ha.
  destruct address; [done|]. reflexivity.
Qed.

(** X17: when the keystore has created no key, [CreateAccount] has
    changed nothing: the client is the same, nothing was handed to the
    encoder, and the call returned the zero account with an error. *)
Theorem CreateAccount_without_key (store_NewAccount : string → string + error)
    (disk : Storage) (accountFilePath : string) (client : Client)
    (account : string) :
  let created :=
    CreateAccount store_NewAccount disk accountFilePath client account in
  cr_keys created = [] →
  cr_client created = client
  ∧ cr_encoded created = []
  ∧ ∃ err, cr_result created = Returns (keeper.zero, Some err).
Proof.
  cbn zeta. unfold CreateAccount.
  destruct (GetAddress client account) as [address ?].
  destruct (0 <? String.length address); [by eauto|].
  destruct (store_NewAccount PASSWORD) as [hex|err]; [|by eauto].
  by destruct (persistAccountMap disk accountFilePath _)
    as [encoded [[err|]|]].
Qed.




(** X21: when the snapshot has an entry for exactly the accounts of the
    address map, as it has after [NewClient], then it still has after a
    sweep, after a listing and after an account creation, however they
    end. *)
Theorem tracked_accounts_invariant (weiToEther : Z → float64)
    (client : Client) :
  dom (accountBalanceMap client) = dom (accountAddressMap client) →
  (∀ order,
     let client' := refreshOver weiToEther order client in
     dom (accountBalanceMap client') = dom (accountAddressMap client'))
  ∧ (∀ conf,
       let client' := (ListAccountsMinConf weiToEther client conf).1 in
       dom (accountBalanceMap client') = dom (accountAddressMap client'))
  ∧ (∀ store_NewAccount disk accountFilePath account,
       let client' :=
         cr_client (CreateAccount store_NewAccount disk accountFilePath
                      client account) in
       dom (accountBalanceMap client') = dom (accountAddressMap client')).
Proof.
  intros Hdom. repeat split.
  - intros order client'. unfold client'.
    destruct (refreshOver_fixed weiToEther order client) as [_ ->].
    rewrite <- Hdom. clear Hdom client'. revert client.
    induction order as [|a order IH]; intros client; [done|].
    rewrite refreshOver_cons, IH.
    by destruct (refreshEntry_frame weiToEther a client) as [-> _].
  - intros conf client'. unfold client', ListAccountsMinConf.
    pose proof (listOver_frame weiToEther
                  (map_to_list (accountAddressMap client)) (client, ∅))
      as (Hm & Hb & _).
    destruct (listOver weiToEther (map_to_list (accountAddressMap client))
                (client, ∅)) as [c accounts].
    cbn in *. by rewrite Hm, Hb.
  - intros store_NewAccount disk accountFilePath account client'.
    unfold client', CreateAccount.
    destruct (GetAddress client account) as [address ?].
    destruct (0 <? String.length address); [done|].
    destruct (store_NewAccount PASSWORD) as [hex|err]; [|done].
    destruct (persistAccountMap disk accountFilePath _)
      as [encoded [[err|]|]]; cbn; by rewrite !dom_insert_L, Hdom.
Qed.

(** ** More on sending *)

Section Sending.

Variable etherToWei : float64 → Z.

(** X22: [SendFrom] with a destination that is not a hex address returns
    the invalid-address error, whatever the account; nothing is sent and
    nothing is logged. *)
Theorem SendFrom_invalid_destination (backend : Backend) (client : Client)
    (account hexToAddress : string) (amount : float64) :
  common.IsHexAddress hexToAddress = false →
  SendFrom etherToWei backend client account hexToAddress amount
  = (client, [], Some ErrInvalidAddress).
Proof.
  intros Hto. unfold SendFrom. rewrite Hto.
  destruct (common.IsHexAddress account); cbn [negb]; [done|].
  by destruct (accountAddressMap client !! account).
Qed.


(** X24: [SendFrom] hands at most one transaction to the node and writes
    only to the package log: the maps, the notifier and the client's own
    log are as before, so the snapshot does not reflect the transfer until
    the watcher sees it.  The error it returns is [ErrInvalidAddress] with
    nothing logged, or an error of the node or the keystore, which is then
    the one line it has added to the log. *)
Theorem SendFrom_effects (backend : Backend) (client : Client)
    (account hexToAddress : string) (amount : float64) :
  let result :=
    SendFrom etherToWei backend client account hexToAddress amount in
  let client' := result.1.1 in
  length result.1.2 ≤ 1
  ∧ accountAddressMap client' = accountAddressMap client
  ∧ accountBalanceMap client' = accountBalanceMap client
  ∧ noti client' = noti client
  ∧ l client' = l client
  ∧ match result.2 with
    | None => log client' = log client ∧ length result.1.2 = 1
    | Some err =>
        (err = ErrInvalidAddress ∧ client' = client ∧ result.1.2 = [])
        ∨ log client' = log client ++ [err]
    end.
Proof.
  cbn zeta. unfold SendFrom.
  destruct (common.IsHexAddress account); cbn [negb];
    [|destruct (accountAddressMap client !! account); cbn; by eauto 10].
  destruct (common.IsHexAddress hexToAddress); cbn [negb];
    [|cbn; by eauto 10].
  destruct (PendingNonceAt backend _) as [nonce|]; [|cbn; by eauto 10].
  destruct (SuggestGasPrice backend) as [gasPrice|]; [|cbn; by eauto 10].
  destruct (NetworkID backend) as [chainID|]; [|cbn; by eauto 10].
  destruct (store_SignTx backend _ _ _); [cbn; by eauto 10|].
  destruct (SendTransaction backend _); cbn; by eauto 10.
Qed.

(** X25: [Move] fails with [ErrInvalidAddress], sending nothing, whenever
    one of its two arguments is not a hex address, so it cannot move
    between accounts given by name; otherwise it returns true exactly when
    [SendFrom] returns nil. *)
Theorem Move_by_name (backend : Backend) (client : Client)
    (from to : string) (amount : float64) :
  (common.IsHexAddress from && common.IsHexAddress to = false →
   Move etherToWei backend client from to amount
   = (client, [], (false, Some ErrInvalidAddress)))
  ∧ ((Move etherToWei backend client from to amount).2.1 = true
     ↔ (SendFrom etherToWei backend client from to amount).2 = None).
Proof.
  split.
  - intros Hhex. unfold Move, SendFrom.
    destruct (common.IsHexAddress from); cbn [negb];
      [|by destruct (accountAddressMap client !! from)].
    cbn in Hhex. by rewrite Hhex.
  - unfold Move.
    by destruct (SendFrom etherToWei backend client from to amount)
      as [[c sent] [err|]].
Qed.

End Sending.

(** ** The watcher on the example *)

Lemma example_order :
  ["alice"; "bob"] ≡ₚ keys (accountBalanceMap client_example).
Proof. vm_compute. reflexivity. Qed.

Lemma example_sweep :
  published client_example (refreshFunc weiToEther_example client_example)
  = [event_alice; event_bob].
Proof. vm_compute. reflexivity. Qed.

(** C1, on the example: the lookup for bob's address fails and bob's
    snapshot balance is 10; the sweep logs the error, and then publishes an
    event for bob with new balance 0 and stores 0 as bob's balance. *)
Theorem refresh_lookup_failed_example :
  let client' := refreshFunc weiToEther_example client_example in
  accountBalanceMap client_example !! "bob" = Some 10%float
  ∧ accountAddressMap client_example !! "bob" = Some addr_bob
  ∧ ethRpcClient client_example addr_bob
    = inr (ExternalError "connection refused")
  ∧ log client' = [ExternalError "connection refused"]
  ∧ accountBalanceMap client' !! "bob" = Some 0%float
  ∧ eventsFor "bob" (published client_example client')
    = [notifier.NewEthBalanceChangeEvent
         (balanceChangePayload "bob" addr_bob 0%float 10%float)].
Proof. vm_compute. repeat split; reflexivity. Qed.

Lemma refresh_lookup_succeeded_witness :
  let client' :=
    refreshOver weiToEther_example ["alice"; "bob"] client_example in
  eventsFor "alice" (published client_example client')
  = [notifier.NewEthBalanceChangeEvent
       (balanceChangePayload "alice" addr_alice 12.5%float 10%float)]
  ∧ accountBalanceMap client' !! "alice" = Some 12.5%float.
Proof.
  pose proof (refresh_lookup_succeeded weiToEther_example client_example
                ["alice"; "bob"] "alice" addr_alice 10%float
                12500000000000000000%Z example_order
                eq_refl eq_refl eq_refl) as H.
  cbv zeta in H.
  change (weiToEther_example 12500000000000000000) with 12.5%float in H.
  change (float64_ne 10%float 12.5%float) with true in H. cbv iota in H.
  destruct H as (_ & _ & _ & Hev & Hbal). split; assumption.
Defined.

(** C3 as first stated fails on the example: the event published for alice
    has no key oldBalance. *)
Lemma payload_oldBalance_counterexample :
  ¬ (∀ event,
       event ∈ published client_example
                 (refreshFunc weiToEther_example client_example) →
       dom (notifier.Payload event)
       = ({[ "account"; "address"; "oldBalance"; "newBalance" ]}
            : gset string)).
Proof.
  intros H.
  specialize (H (notifier.NewEthBalanceChangeEvent
                   (balanceChangePayload "alice" addr_alice 12.5%float
                      10%float))).
  rewrite example_sweep in H. specialize (H (list_elem_of_here _ _)).
  assert ("oldBalance" ∈ dom (balanceChangePayload "alice" addr_alice
                                12.5%float 10%float)) as Hin.
  { cbn in H. rewrite H. set_solver. }
  apply elem_of_dom in Hin as [v Hv]. vm_compute in Hv. discriminate.
Qed.

Lemma published_payload_witness :
  ∃ (account address : string) (balance newBalance : float64),
    accountBalanceMap client_example !! account = Some balance
    ∧ accountAddressMap client_example !! account = Some address
    ∧ dom (balanceChangePayload "alice" addr_alice 12.5%float 10%float)
      = ({[ "account"; "address"; "balance"; "newBalance" ]} : gset string)
    ∧ balanceChangePayload "alice" addr_alice 12.5%float 10%float
        !! "account" = Some (VString account)
    ∧ balanceChangePayload "alice" addr_alice 12.5%float 10%float
        !! "address" = Some (VString address)
    ∧ balanceChangePayload "alice" addr_alice 12.5%float 10%float
        !! "balance" = Some (VFloat64 balance)
    ∧ balanceChangePayload "alice" addr_alice 12.5%float 10%float
        !! "newBalance" = Some (VFloat64 newBalance)
    ∧ ∀ wei, ethRpcClient client_example address = inl wei →
             newBalance = weiToEther_example wei.
Proof.
  apply (published_payload weiToEther_example client_example
           ["alice"; "bob"]
           (notifier.NewEthBalanceChangeEvent
              (balanceChangePayload "alice" addr_alice 12.5%float 10%float))
           example_order).
  change (refreshOver weiToEther_example ["alice"; "bob"] client_example)
    with (refreshFunc weiToEther_example client_example).
  rewrite example_sweep. apply list_elem_of_here.
Defined.

(** ** The other operations on the example *)

Lemma NewClient_example :
  NewClient weiToEther_example system_example "http://localhost:8545"
    "wallets" "accounts.json" "logs" = inl client_seeded.
Proof. vm_compute. reflexivity. Qed.

Lemma NewClient_seeds_witness :
  loadAccountMap system_example "accounts.json"
    = inl (accountAddressMap client_seeded)
  ∧ dom (accountBalanceMap client_seeded)
    = dom (accountAddressMap client_seeded)
  ∧ (∀ account address,
       accountAddressMap client_seeded !! account = Some address →
       accountBalanceMap client_seeded !! account
       = Some (getBalance weiToEther_example client_seeded address).1)
  ∧ notifier.eventChan (noti client_seeded) = [].
Proof.
  exact (NewClient_seeds weiToEther_example system_example
           "http://localhost:8545" "wallets" "accounts.json" "logs"
           client_seeded NewClient_example).
Defined.

Lemma ListAccountsMinConf_total_witness :
  (ListAccountsMinConf weiToEther_example client_example 6).2.2 = None
  ∧ (ListAccountsMinConf weiToEther_example client_example 6).2.1 !! "bob"
    = Some 0%float.
Proof.
  destruct (ListAccountsMinConf_total weiToEther_example client_example 6)
    as (Herr & _ & Hall).
  split; [exact Herr|]. exact (Hall "bob" addr_bob eq_refl).
Defined.

Lemma SendFrom_account_name_witness :
  accountAddressMap client_example !! "alice" = Some addr_alice
  ∧ common.IsHexAddress addr_alice = true
  ∧ common.IsHexAddress addr_bob = true
  ∧ SendFrom etherToWei_example backend_example client_example
      "alice" addr_bob 1%float
    = (client_example, [], Some ErrInvalidAddress).
Proof.
  split; [reflexivity|]. split; [reflexivity|]. split; [reflexivity|].
  apply (SendFrom_account_name etherToWei_example backend_example
           client_example "alice" addr_bob 1%float).
  reflexivity.
Defined.

Lemma install_well_formed_witness :
  ∃ receiver,
    notifier.receivers
      (noti (installHandler uuid_example request_example client_example).1)
      !! uuid_example = Some receiver
    ∧ notifier.Endpoint receiver = "http://callbackdomain.com/foo/bar"
    ∧ notifier.RetryCount receiver = 2%N
    ∧ notifier.EventTypes receiver
      = ["eth_balance_change_event"; "eth_new_block_event"].
Proof.
  destruct (install_well_formed uuid_example request_example client_example
              (mkInstallParams 2 "http://callbackdomain.com/foo/bar"
                 "eth_balance_change_event,eth_new_block_event") eq_refl)
    as (receiver & Hin & Hend & Hretry & Htypes & _).
  exists receiver. repeat split; assumption.
Defined.

(** C4 as first stated fails on the example: the request with the empty
    endpoint gets no error response, and its receiver is stored. *)
Lemma install_empty_endpoint_counterexample :
  gin.ShouldBind request_empty_endpoint
    = inl (mkInstallParams 1 "" "eth_balance_change_event")
  ∧ ¬ install_rejected uuid_example request_empty_endpoint client_example
  ∧ gin.written
      (installHandler uuid_example request_empty_endpoint client_example).2
    = []
  ∧ notifier.receivers
      (noti (installHandler uuid_example request_empty_endpoint
               client_example).1) !! uuid_example
    = Some (notifier.mkReceiver "" ["eth_balance_change_event"] 1).
Proof.
  split; [reflexivity|]. split; [|split; [reflexivity|by vm_compute]].
  intros [(response & Hin & _) _]. cbn in Hin. by apply elem_of_nil in Hin.
Qed.

Lemma bus_backpressure_witness :
  let s := bus.mkState [event_bob] [event_alice] [] in
  bus.dispatched s ++ bus.buffer s ++ bus.pending s = [event_alice; event_bob]
  ∧ ∃ s', rtc (bus.step 1) s s'
          ∧ bus.dispatched s' = [event_alice; event_bob].
Proof.
  destruct (bus_backpressure 1 [event_alice; event_bob]
              (bus.mkState [event_bob] [event_alice] []))
    as (Hall & _ & _ & _ & _ & s' & Hrun & _ & _ & Hd).
  - lia.
  - apply rtc_once. apply (bus.step_send 1 event_alice [event_bob] [] []).
    cbn. lia.
  - split; [exact Hall|]. exists s'. split; assumption.
Defined.

(** ** The further properties on the examples *)

Lemma example_order_reversed :
  ["bob"; "alice"] ≡ₚ keys (accountBalanceMap client_example).
Proof. rewrite <- example_order. apply perm_swap. Qed.

Lemma orphan_order :
  ["alice"; "dave"] ≡ₚ keys (accountBalanceMap client_orphan).
Proof. vm_compute. reflexivity. Qed.

Lemma example_swept_order :
  ["alice"; "bob"]
  ≡ₚ keys (accountBalanceMap
             (refreshOver weiToEther_example ["alice"; "bob"]
                client_example)).
Proof. vm_compute. reflexivity. Qed.

Lemma seeded_order :
  ["alice"; "bob"] ≡ₚ keys (accountBalanceMap client_seeded).
Proof. vm_compute. reflexivity. Qed.

Lemma example_entries :
  [("alice", addr_alice); ("bob", addr_bob)]
  ≡ₚ map_to_list (accountAddressMap client_example).
Proof. vm_compute. reflexivity. Qed.

Lemma example_entries_reversed :
  [("bob", addr_bob); ("alice", addr_alice)]
  ≡ₚ map_to_list (accountAddressMap client_example).
Proof. rewrite <- example_entries. apply perm_swap. Qed.

(** The example node answers with balances that are numbers. *)
Lemma node_example_not_nan (address : string) (wei : Z) :
  node_example address = inl wei →
  PrimFloat.is_nan (weiToEther_example wei) = false.
Proof.
  unfold node_example. destruct (String.eqb address addr_alice); [|done].
  intros [= <-]. reflexivity.
Qed.

Lemma refresh_one_event_per_account_witness :
  length (published client_example
            (refreshOver weiToEther_example ["alice"; "bob"] client_example))
  ≤ size (accountBalanceMap client_example).
Proof.
  exact (proj2 (refresh_one_event_per_account weiToEther_example
                  client_example ["alice"; "bob"] example_order)).
Defined.

Lemma refresh_skips_unknown_address_witness :
  accountBalanceMap
    (refreshOver weiToEther_example ["alice"; "dave"] client_orphan)
    !! "dave" = Some 3%float
  ∧ eventsFor "dave"
      (published client_orphan
         (refreshOver weiToEther_example ["alice"; "dave"] client_orphan))
    = [].
Proof.
  exact (refresh_skips_unknown_address weiToEther_example client_orphan
           ["alice"; "dave"] "dave" 3%float orphan_order eq_refl eq_refl).
Defined.

Lemma published_event_matches_snapshot_witness :
  ∃ (account : string) (balance newBalance : float64),
    notifier.Payload event_alice !! "account" = Some (VString account)
    ∧ notifier.Payload event_alice !! "balance" = Some (VFloat64 balance)
    ∧ notifier.Payload event_alice !! "newBalance"
      = Some (VFloat64 newBalance)
    ∧ accountBalanceMap client_example !! account = Some balance
    ∧ accountBalanceMap
        (refreshOver weiToEther_example ["alice"; "bob"] client_example)
        !! account = Some newBalance
    ∧ float64_ne balance newBalance = true.
Proof.
  apply (published_event_matches_snapshot weiToEther_example client_example
           ["alice"; "bob"] event_alice example_order).
  change (refreshOver weiToEther_example ["alice"; "bob"] client_example)
    with (refreshFunc weiToEther_example client_example).
  rewrite example_sweep. apply list_elem_of_here.
Defined.

Lemma refresh_silent_entry_unchanged_witness :
  accountBalanceMap
    (refreshOver weiToEther_example ["alice"; "dave"] client_orphan)
    !! "dave"
  = accountBalanceMap client_orphan !! "dave".
Proof.
  apply (refresh_silent_entry_unchanged weiToEther_example client_orphan
           ["alice"; "dave"] "dave" orphan_order).
  vm_compute. reflexivity.
Defined.

Lemma refresh_order_irrelevant_witness :
  accountBalanceMap
    (refreshOver weiToEther_example ["alice"; "bob"] client_example)
  = accountBalanceMap
      (refreshOver weiToEther_example ["bob"; "alice"] client_example).
Proof.
  exact (proj1 (refresh_order_irrelevant weiToEther_example client_example
                  ["alice"; "bob"] ["bob"; "alice"] example_order
                  example_order_reversed)).
Defined.

Lemma refresh_idempotent_witness :
  let client' :=
    refreshOver weiToEther_example ["alice"; "bob"] client_example in
  published client' (refreshOver weiToEther_example ["alice"; "bob"] client')
  = [].
Proof.
  exact (proj1 (refresh_idempotent weiToEther_example client_example
                  ["alice"; "bob"] ["alice"; "bob"] example_order
                  example_swept_order
                  (λ _ address wei _, node_example_not_nan address wei))).
Defined.

Lemma NewClient_wallet_directory_witness :
  NewClient weiToEther_example system_example "http://localhost:8545"
    "nowhere" "accounts.json" "logs" = inr ErrNotDirectory.
Proof.
  exact (NewClient_wallet_directory weiToEther_example system_example
           "http://localhost:8545" "nowhere" "accounts.json" "logs"
           (mkFileInfo true false)
           (<["alice" := addr_alice]> (<["bob" := addr_bob]> ∅))
           eq_refl eq_refl eq_refl I).
Defined.

Lemma seed_order_irrelevant_witness :
  accountBalanceMap
    (seedOver weiToEther_example [("alice", addr_alice); ("bob", addr_bob)]
       client_example)
  = accountBalanceMap
      (seedOver weiToEther_example [("bob", addr_bob); ("alice", addr_alice)]
         client_example).
Proof.
  exact (seed_order_irrelevant weiToEther_example client_example _ _
           example_entries example_entries_reversed).
Defined.

Lemma first_sweep_silent_witness :
  published client_seeded
    (refreshOver weiToEther_example ["alice"; "bob"] client_seeded) = []
  ∧ accountBalanceMap
      (refreshOver weiToEther_example ["alice"; "bob"] client_seeded)
    = accountBalanceMap client_seeded.
Proof.
  exact (first_sweep_silent weiToEther_example system_example
           "http://localhost:8545" "wallets" "accounts.json" "logs"
           client_seeded ["alice"; "bob"] NewClient_example seeded_order
           (λ _ address wei _, node_example_not_nan address wei)).
Defined.

Lemma ListAccountsMinConf_reads_only_witness :
  accountBalanceMap (ListAccountsMinConf weiToEther_example client_example 6).1
  = accountBalanceMap client_example
  ∧ (ListAccountsMinConf weiToEther_example client_example 6).2.1
    = (listOver weiToEther_example
         [("bob", addr_bob); ("alice", addr_alice)] (client_example, ∅)).2.
Proof.
  destruct (ListAccountsMinConf_reads_only weiToEther_example client_example
              6 _ example_entries_reversed) as (_ & Hb & _ & _ & Hl).
  split; assumption.
Defined.

Lemma info_and_listing_witness :
  (ListAccountsMinConf weiToEther_example client_example 6).2.1 !! "alice"
  = Some 12.5%float.
Proof.
  pose proof (info_and_listing weiToEther_example client_example "alice"
                addr_alice 1 6 eq_refl) as H.
  cbv zeta in H.
  change (GetAccountInfo weiToEther_example client_example "alice" 1)
    with (inl ("alice", 12.5%float, [addr_alice])
            : string * float64 * list string + error) in H.
  exact (proj2 (proj2 H)).
Defined.

Lemma CreateAccount_existing_witness :
  CreateAccount keystore_example disk_example "accounts.json" client_example
    "alice"
  = mkCreated client_example [] []
      (Returns (keeper.zero, Some ErrAccountExists)).
Proof.
  apply (CreateAccount_existing keystore_example disk_example
           "accounts.json" client_example "alice" addr_alice eq_refl).
  discriminate.
Defined.

Lemma CreateAccount_without_key_witness :
  cr_client (CreateAccount keystore_example disk_example "accounts.json"
               client_example "alice") = client_example.
Proof.
  exact (proj1 (CreateAccount_without_key keystore_example disk_example
                  "accounts.json" client_example "alice" eq_refl)).
Defined.




Lemma tracked_accounts_invariant_witness :
  dom (accountBalanceMap
         (cr_client (CreateAccount keystore_example disk_example
                       "accounts.json" client_example "carol")))
  = dom (accountAddressMap
           (cr_client (CreateAccount keystore_example disk_example
                         "accounts.json" client_example "carol"))).
Proof.
  assert (dom (accountBalanceMap client_example)
          = dom (accountAddressMap client_example)) as Hdom.
  { unfold client_example. cbn [accountBalanceMap accountAddressMap].
    by rewrite !dom_insert_L. }
  destruct (tracked_accounts_invariant weiToEther_example client_example
              Hdom) as (_ & _ & Hcreate).
  exact (Hcreate keystore_example disk_example "accounts.json" "carol").
Defined.

Lemma SendFrom_invalid_destination_witness :
  common.IsHexAddress addr_alice = true
  ∧ SendFrom etherToWei_example backend_example client_example addr_alice
      "bob" 1%float
    = (client_example, [], Some ErrInvalidAddress).
Proof.
  split; [reflexivity|].
  apply (SendFrom_invalid_destination etherToWei_example backend_example
           client_example addr_alice "bob" 1%float).
  reflexivity.
Defined.
